(** * tonic_validate: the scoring pipeline of [ValidateScorer]

    A shallow embedding of [src/tonic_validate/validate_scorer.py] and
    the properties of its two entry points, [score_run] and [score].

    - Python [float] is IEEE binary64: scores are Rocq's primitive
      floats, added and divided with the primitive operations.
    - A Python [dict] keyed by metric name is a [gmap string _]; the
      two [defaultdict]s of the aggregation are read with their default.
      A loop over [items()] visits each key once; the order of the
      visits is the map's, not the insertion order, and no result
      depends on it.
    - An exception is a value of [exn]; a call that may raise returns a
      [result].  [StopIteration] has a case of its own: it is the one
      exception that [list(executor.map(...))] does not hand to its
      caller as it was raised.
    - A task is a sequence of operations on a shared world, which
      records the service objects constructed and the metric calls
      made; the operations of tasks that run at the same time
      interleave.
    - [ThreadPoolExecutor.map] is a transition system whose schedule
      (which worker takes a call, which task does its next operation,
      which completes, when the caller reads or cancels a future) is an
      explicit argument. *)

From Stdlib Require Import PrimFloat SpecFloat FloatOps.
From stdpp Require Import gmap strings list fin_maps.

Local Open Scope string_scope.
Local Open Scope list_scope.
Local Open Scope Z_scope.

(** ** Exceptions and results *)

(** The exceptions the pipeline meets, by class; [StopIteration] stands
    for the class and its subclasses, [Exception] for every other
    exception a callback or a metric may raise. *)
Inductive exn : Type :=
  | ValueError (msg : string)
  | ZeroDivisionError (msg : string)
  | StopIteration (msg : string)
  | RuntimeError (msg : string)
  | Exception (msg : string).

Inductive result (A : Type) : Type :=
  | Ok (a : A)
  | Raise (e : exn).
Arguments Ok {A} a.
Arguments Raise {A} e.

Definition is_Ok {A} (r : result A) : Prop := ∃ a, r = Ok a.

Definition result_bind {A B} (r : result A) (k : A → result B) : result B :=
  match r with
  | Ok a => k a
  | Raise e => Raise e
  end.

(** ** Python numbers *)

(** [float(n)] for a Python [int]: the nearest binary64, ties to even. *)
Definition int_to_float (n : Z) : float :=
  SF2Prim (binary_normalize prec emax n 0 false).

(** [total / n] with [total] a float and [n] an int. *)
Definition truediv (total : float) (n : Z) : result float :=
  if decide (n = 0) then Raise (ZeroDivisionError "float division by zero")
  else Ok (PrimFloat.div total (int_to_float n)).

(** ** Data classes *)

(** Modelled from the spec: the classes of [tonic_validate.classes]
    are imported by the scorer but defined elsewhere; their fields are
    those of the data model (section 3). *)
Module BenchmarkItem.
Record t : Type := mk {
  question : string;
  answer : string;
  context : option (list string)
}.
End BenchmarkItem.

Module Benchmark.
Record t : Type := mk {
  items : list BenchmarkItem.t;
  name : option string
}.
End Benchmark.

Module LLMResponse.
Record t : Type := mk {
  llm_answer : string;
  llm_context_list : list string;
  benchmark_item : BenchmarkItem.t
}.
End LLMResponse.

Module RunData.
Record t : Type := mk {
  scores : gmap string float;
  question : string;
  reference_answer : string;
  llm_answer : string;
  llm_context_list : list string
}.
End RunData.

Module Run.
Record t : Type := mk {
  overall_scores : gmap string float;
  run_data : list RunData.t;
  id : option string
}.
End Run.

(** ** Aggregation ([score_run], lines 68-79) *)

(** [d[key]] on a [defaultdict] whose factory returns [dflt]. *)
Definition defaultdict_get {V} (dflt : V) (d : gmap string V) (key : string) : V :=
  default dflt (d !! key).

(** The body of the inner loop:
    [total_scores[metric_name] += score; num_scores[metric_name] += 1]. *)
Definition add_score (metric_name : string) (score : float)
    (acc : gmap string float * gmap string Z) : gmap string float * gmap string Z :=
  let '(total_scores, num_scores) := acc in
  (<[metric_name := PrimFloat.add (defaultdict_get 0%float total_scores metric_name) score]>
     total_scores,
   <[metric_name := defaultdict_get 0 num_scores metric_name + 1]> num_scores).

(** [for metric_name, score in item.scores.items(): ...] *)
Definition add_item (acc : gmap string float * gmap string Z) (item : RunData.t)
    : gmap string float * gmap string Z :=
  map_fold add_score acc (RunData.scores item).

(** [for item in run_data: ...], from two empty [defaultdict]s. *)
Definition accumulate (run_data : list RunData.t) : gmap string float * gmap string Z :=
  foldl add_item (∅, ∅) run_data.

(** [{metric: total / num_scores[metric] for metric, total in total_scores.items()}] *)
Definition divide_totals (total_scores : gmap string float) (num_scores : gmap string Z)
    : result (gmap string float) :=
  map_fold
    (λ metric total acc,
       result_bind acc (λ overall,
       result_bind (truediv total (defaultdict_get 0 num_scores metric)) (λ mean,
       Ok (<[metric := mean]> overall))))
    (Ok ∅) total_scores.

Definition aggregate (run_data : list RunData.t) : result (gmap string float) :=
  let '(total_scores, num_scores) := accumulate run_data in
  divide_totals total_scores num_scores.

(** The mean the specification speaks of: the values of metric [m] over
    the entries that have one, summed from [0.0] in list order and
    divided by their number. *)
Definition observations (m : string) (run_data : list RunData.t) : list float :=
  omap (λ item, RunData.scores item !! m) run_data.

Definition float_sum (xs : list float) : float :=
  foldl PrimFloat.add 0%float xs.

Definition arithmetic_mean (xs : list float) : float :=
  PrimFloat.div (float_sum xs) (int_to_float (Z.of_nat (length xs))).

(** The reference aggregation of the specification: for each metric
    name observed in some entry, the mean of its observations. *)
Definition observed_metrics (run_data : list RunData.t) : gset string :=
  ⋃ ((λ item, dom (RunData.scores item)) <$> run_data).

Definition reference_overall_scores (run_data : list RunData.t) : gmap string float :=
  set_to_map (λ m, (m, arithmetic_mean (observations m run_data)))
    (observed_metrics run_data).

(** ** The judge service and the metrics *)

(** Modelled from the spec: [OpenAIService] is imported from
    [tonic_validate.services]; section 4.2 gives its construction from a
    model identifier. *)
Module OpenAIService.
Record t : Type := mk {
  model : string
}.
End OpenAIService.

(** Modelled from the spec: the [Metric] interface of section 4.1, a
    [name] and a [score] that returns a float or raises.  What [score]
    returns may depend on the response and on the service object it is
    given, not on which object it is. *)
Module Metric.
Record t : Type := mk {
  name : string;
  score : LLMResponse.t → OpenAIService.t → result float
}.
End Metric.

(** ** Effects of a scoring task *)

(** A reference to a service object: the object and the identity it
    received when it was constructed. *)
Record instance : Type := Instance {
  ident : nat;
  object : OpenAIService.t
}.

(** One call [metric.score(response, openai_service)]. *)
Record call : Type := Call {
  call_service : nat;
  call_metric : string;
  call_response : LLMResponse.t
}.

(** What the scorer has done so far: the service objects it has
    constructed (an object's identity is its position) and the metric
    calls it has made. *)
Record world : Type := World {
  services : list OpenAIService.t;
  calls : list call
}.

Definition empty_world : world := World [] [].

(** What runs in one piece: it reads and changes the world, and returns
    or raises. *)
Definition M (A : Type) : Type := world → result A * world.

(** A task is a sequence of operations, each in one piece; between two
    of them the operations of other tasks may come. *)
Inductive task (B : Type) : Type :=
  | Return (r : result B)
  | Do {X : Type} (op : M X) (k : X → task B).
Arguments Return {B} r.
Arguments Do {B X} op k.

Definition ret {A} (a : A) : task A := Return (Ok a).

Fixpoint bind {A B} (c : task A) (k : A → task B) : task B :=
  match c with
  | Return (Ok a) => k a
  | Return (Raise e) => Return (Raise e)
  | Do op k' => Do op (λ x, bind (k' x) k)
  end.

Notation "x <- c ;; k" := (bind c (λ x, k))
  (at level 100, c at next level, right associativity).

(** One operation as a task. *)
Definition atomic {A} (op : M A) : task A := Do op ret.

(** A task on its own, from the first operation to the last. *)
Fixpoint run_task {B} (t : task B) (w : world) : result B * world :=
  match t with
  | Return r => (r, w)
  | Do op k =>
      match op w with
      | (Ok x, w') => run_task (k x) w'
      | (Raise e, w') => (Raise e, w')
      end
  end.
Coercion run_task : task >-> Funclass.

(** A call of a function without effects, such as the callback. *)
Definition lift {A} (r : result A) : task A := atomic (λ w, (r, w)).

(** [OpenAIService(model)] *)
Definition OpenAIService_new (model : string) : task instance :=
  atomic (λ w, let object := OpenAIService.mk model in
               (Ok (Instance (length (services w)) object),
                World (services w ++ [object]) (calls w))).

(** [metric.score(response, openai_service)] *)
Definition Metric_score (metric : Metric.t) (response : LLMResponse.t)
    (openai_service : instance) : task float :=
  atomic (λ w, (Metric.score metric response (object openai_service),
                World (services w)
                      (calls w ++ [Call (ident openai_service) (Metric.name metric)
                                        response]))).

(** [for x in xs: acc = body(acc, x)] *)
Fixpoint for_each {A S} (body : S → A → task S) (acc : S) (xs : list A) : task S :=
  match xs with
  | [] => ret acc
  | x :: xs' => acc' <- body acc x ;; for_each body acc' xs'
  end.

(** ** The scorer *)

Module ValidateScorer.
Record t : Type := mk {
  metrics : list Metric.t;
  model_evaluator : string
}.
End ValidateScorer.

(** [ValidateScorer.__init__]: the two arguments are stored as they
    come. *)
Definition __init__ (metrics : list Metric.t) (model_evaluator : string)
    : result ValidateScorer.t :=
  Ok (ValidateScorer.mk metrics model_evaluator).

Definition _score_item_rundata (self : ValidateScorer.t) (response : LLMResponse.t)
    : task RunData.t :=
  openai_service <- OpenAIService_new (ValidateScorer.model_evaluator self) ;;
  scores <- for_each
      (λ scores metric,
         score <- Metric_score metric response openai_service ;;
         ret (<[Metric.name metric := score]> scores))
      (∅ : gmap string float) (ValidateScorer.metrics self) ;;
  let benchmark_item := LLMResponse.benchmark_item response in
  ret (RunData.mk scores
         (BenchmarkItem.question benchmark_item)
         (BenchmarkItem.answer benchmark_item)
         (LLMResponse.llm_answer response)
         (LLMResponse.llm_context_list response)).

(** ** [ThreadPoolExecutor.map]

    [list(executor.map(fn, args))] inside [with ThreadPoolExecutor(...)]:
    every call is submitted at once, in order, each with a future.  At
    most [max_workers] workers take calls from the queue, first in first
    out, run them one operation at a time, in any interleaving, and
    complete them in any order.  The caller reads the futures in
    submission order and waits for each.  At the first one that holds an
    exception it cancels the futures after it, last to first, while the
    workers go on; a cancelled call that has not started never starts.
    The exception leaves the generator of [map] when the cancelling is
    over (a [StopIteration] leaves it as a [RuntimeError]), and the
    [with] block when the running calls are done. *)

Inductive event : Type :=
  | Start                 (* a free worker takes the next queued call *)
  | Work (i : nat)        (* the worker of call [i] does its next operation *)
  | Finish (i : nat)      (* the worker of call [i] stores its result *)
  | Collect               (* the caller reads the next future *)
  | Cancel.               (* the caller cancels the next future after the failed one *)

Record pool (B : Type) : Type := Pool {
  queue : list nat;
  running : gmap nat (task B);
  futures : list (option (result B));
  collected : list B;
  failure : option exn;
  to_cancel : list nat;
  shared : world
}.
Arguments Pool {B} _ _ _ _ _ _ _.
Arguments queue {B} _.
Arguments running {B} _.
Arguments futures {B} _.
Arguments collected {B} _.
Arguments failure {B} _.
Arguments to_cancel {B} _.
Arguments shared {B} _.

(** An exception that leaves a generator: PEP 479. *)
Definition generator_exit (e : exn) : exn :=
  match e with
  | StopIteration _ => RuntimeError "generator raised StopIteration"
  | _ => e
  end.

Section executor.
Context {A B : Type}.
Variable max_workers : Z.
Variable fn : A → task B.
Variable args : list A.

Definition submit_all (w : world) : pool B :=
  Pool (seq 0 (length args)) ∅ (replicate (length args) None) [] None [] w.

Definition step (e : event) (s : pool B) : option (pool B) :=
  match e with
  | Start =>
      match queue s with
      | i :: rest =>
          match args !! i with
          | Some a =>
              if decide (Z.of_nat (size (running s)) < max_workers)
              then Some (Pool rest (<[i := fn a]> (running s)) (futures s)
                              (collected s) (failure s) (to_cancel s) (shared s))
              else None
          | None => None
          end
      | [] => None
      end
  | Work i =>
      match running s !! i with
      | Some (Do op k) =>
          let '(r, w') := op (shared s) in
          let t' := match r with
                    | Ok x => k x
                    | Raise e => Return (Raise e)
                    end in
          Some (Pool (queue s) (<[i := t']> (running s)) (futures s)
                     (collected s) (failure s) (to_cancel s) w')
      | _ => None
      end
  | Finish i =>
      match running s !! i with
      | Some (Return r) =>
          Some (Pool (queue s) (delete i (running s))
                     (<[i := Some r]> (futures s))
                     (collected s) (failure s) (to_cancel s) (shared s))
      | _ => None
      end
  | Collect =>
      match failure s, futures s !! length (collected s) with
      | None, Some (Some (Ok b)) =>
          Some (Pool (queue s) (running s) (futures s)
                     (collected s ++ [b]) None [] (shared s))
      | None, Some (Some (Raise e)) =>
          Some (Pool (queue s) (running s) (futures s)
                     (collected s) (Some e)
                     (reverse (seq (S (length (collected s)))
                                   (length (futures s) - S (length (collected s)))))
                     (shared s))
      | _, _ => None
      end
  | Cancel =>
      match to_cancel s with
      | j :: rest =>
          Some (Pool (filter (λ i, i ≠ j) (queue s)) (running s) (futures s)
                     (collected s) (failure s) rest (shared s))
      | [] => None
      end
  end.

Fixpoint run (schedule : list event) (s : pool B) : option (pool B) :=
  match schedule with
  | [] => Some s
  | e :: schedule' =>
      match step e s with
      | Some s' => run schedule' s'
      | None => None
      end
  end.

(** The [with] block is left: no call is queued or running, and the
    caller has read every future, or has met an exception and cancelled
    what was to cancel. *)
Definition finished (s : pool B) : bool :=
  bool_decide (queue s = []) && bool_decide (running s = ∅) &&
  match failure s with
  | Some _ => bool_decide (to_cancel s = [])
  | None => bool_decide (length (collected s) = length (futures s))
  end.

Definition outcome (s : pool B) : result (list B) :=
  match failure s with
  | Some e => Raise (generator_exit e)
  | None => Ok (collected s)
  end.

(** [ThreadPoolExecutor(max_workers)] raises [ValueError] when
    [max_workers <= 0], before anything is submitted.  [None]: the
    schedule is not a complete execution of the pool. *)
Definition executor_map (schedule : list event) (w : world)
    : option (result (list B) * world) :=
  if decide (max_workers ≤ 0) then
    match schedule with
    | [] => Some (Raise (ValueError "max_workers must be greater than 0"), w)
    | _ :: _ => None
    end
  else match run schedule (submit_all w) with
       | Some s => if finished s then Some (outcome s, shared s) else None
       | None => None
       end.
End executor.

(** [for x in xs: ys.append(fn(x))], the loop [executor.map] stands for. *)
Fixpoint map_loop {A B} (fn : A → task B) (xs : list A) : task (list B) :=
  match xs with
  | [] => ret []
  | x :: xs' => y <- fn x ;; ys <- map_loop fn xs' ;; ret (y :: ys)
  end.

(** ** [score_run] and [score] *)

Definition score_run (self : ValidateScorer.t) (responses : list LLMResponse.t)
    (parallelism : Z) (schedule : list event) (w : world)
    : option (result Run.t * world) :=
  match executor_map parallelism (_score_item_rundata self) responses schedule w with
  | Some (Ok run_data, w') =>
      Some (result_bind (aggregate run_data)
              (λ overall_scores, Ok (Run.mk overall_scores run_data None)), w')
  | Some (Raise e, w') => Some (Raise e, w')
  | None => None
  end.

(** [benchmark: Union[Benchmark, List[BenchmarkItem]]] *)
Inductive benchmark_arg : Type :=
  | OfBenchmark (benchmark : Benchmark.t)
  | OfList (items : list BenchmarkItem.t).

Definition create_response (callback : string → result (string * list string))
    (item : BenchmarkItem.t) : task LLMResponse.t :=
  answer <- lift (callback (BenchmarkItem.question item)) ;;
  let '(llm_answer, llm_context_list) := answer in
  ret (LLMResponse.mk llm_answer llm_context_list item).

Definition benchmark_items (benchmark : benchmark_arg) : list BenchmarkItem.t :=
  match benchmark with
  | OfBenchmark b => Benchmark.items b
  | OfList items => items
  end.

(** The generation stage of [score] (lines 128-137). *)
Definition generate (benchmark : benchmark_arg)
    (callback : string → result (string * list string))
    (callback_parallelism : Z) (schedule : list event) (w : world)
    : option (result (list LLMResponse.t) * world) :=
  executor_map callback_parallelism (create_response callback)
    (benchmark_items benchmark) schedule w.

Definition score (self : ValidateScorer.t) (benchmark : benchmark_arg)
    (callback : string → result (string * list string))
    (callback_parallelism scoring_parallelism : Z)
    (callback_schedule scoring_schedule : list event) (w : world)
    : option (result Run.t * world) :=
  match generate benchmark callback callback_parallelism callback_schedule w with
  | Some (Ok responses, w') =>
      score_run self responses scoring_parallelism scoring_schedule w'
  | Some (Raise e, w') => Some (Raise e, w')
  | None => None
  end.

(** The reference the specification compares with: score the responses
    one after the other in a plain loop, then take the mean of each
    observed metric. *)
Definition score_run_reference (self : ValidateScorer.t)
    (responses : list LLMResponse.t) : task Run.t :=
  run_data <- map_loop (_score_item_rundata self) responses ;;
  ret (Run.mk (reference_overall_scores run_data) run_data None).

(** ** Vocabulary of the statements *)

(** The service object every scoring task constructs. *)
Definition judge (self : ValidateScorer.t) : OpenAIService.t :=
  OpenAIService.mk (ValidateScorer.model_evaluator self).

(** The value a metric returns for a response, if it returns. *)
Definition returned {A} (r : result A) : option A :=
  match r with
  | Ok a => Some a
  | Raise _ => None
  end.

(** The metrics named [name], in configuration order. *)
Definition named (name : string) (metrics : list Metric.t) : list Metric.t :=
  filter (λ metric, Metric.name metric = name) metrics.

(** The metrics a task calls for a response: all of them, or those up
    to the first that raises. *)
Fixpoint attempted (metrics : list Metric.t) (response : LLMResponse.t)
    (service : OpenAIService.t) : list Metric.t :=
  match metrics with
  | [] => []
  | metric :: metrics' =>
      metric ::
      match Metric.score metric response service with
      | Ok _ => attempted metrics' response service
      | Raise _ => []
      end
  end.

(** The calls of the task that scores [response] with the service
    object [h]. *)
Definition task_calls (self : ValidateScorer.t) (h : nat) (response : LLMResponse.t)
    : list call :=
  (λ metric, Call h (Metric.name metric) response)
    <$> attempted (ValidateScorer.metrics self) response (judge self).

(** The calls made on the service object [h]. *)
Definition calls_on (h : nat) (cs : list call) : list call :=
  filter (λ c, call_service c = h) cs.

(** The loop over the metrics of [_score_item_rundata], without the
    world: the dictionary it fills, or the first exception. *)
Fixpoint score_all (self : ValidateScorer.t) (metrics : list Metric.t)
    (response : LLMResponse.t) (scores : gmap string float)
    : result (gmap string float) :=
  match metrics with
  | [] => Ok scores
  | metric :: metrics' =>
      result_bind (Metric.score metric response (judge self))
        (λ score, score_all self metrics' response (<[Metric.name metric := score]> scores))
  end.

(** A list of results as one result: every value, or the first
    exception. *)
Fixpoint sequence {B} (rs : list (result B)) : result (list B) :=
  match rs with
  | [] => Ok []
  | r :: rs' =>
      result_bind r (λ b, result_bind (sequence rs') (λ bs, Ok (b :: bs)))
  end.

(** A result that leaves the generator of [map]. *)
Definition generator_result {B} (r : result B) : result B :=
  match r with
  | Ok b => Ok b
  | Raise e => Raise (generator_exit e)
  end.

(** The number of entries of [run_data] with a score for [name]. *)
Definition entries_with (name : string) (run_data : list RunData.t) : nat :=
  length (filter (λ item, is_Some (RunData.scores item !! name)) run_data).

(** What the task of a response returns: by [score_item_rundata_oblivious]
    below, the same in every world. *)
Definition rundata_of (self : ValidateScorer.t) (response : LLMResponse.t)
    : result RunData.t :=
  (_score_item_rundata self response empty_world).1.

Definition response_of (callback : string → result (string * list string))
    (item : BenchmarkItem.t) : result LLMResponse.t :=
  (create_response callback item empty_world).1.

(** The task ends in [r], whatever the other tasks do to the world in
    between. *)
Fixpoint yields {B} (t : task B) (r : result B) : Prop :=
  match t with
  | Return r' => r' = r
  | Do op k =>
      ∀ w, match (op w).1 with
           | Ok x => yields (k x) r
           | Raise e => r = Raise e
           end
  end.

(** The task leaves the world as it is. *)
Fixpoint silent {B} (t : task B) : Prop :=
  match t with
  | Return _ => True
  | Do op k =>
      ∀ w, (op w).2 = w
           ∧ match (op w).1 with
             | Ok x => silent (k x)
             | Raise _ => True
             end
  end.

(** What is left of a scoring task that holds the service object [h]:
    it calls the metrics [rest] on it, one operation each, whatever the
    world, and nothing else. *)
Fixpoint follows (h : nat) (response : LLMResponse.t) (rest : list Metric.t)
    (t : task RunData.t) : Prop :=
  match t with
  | Return _ => rest = []
  | Do op k =>
      ∃ metric rest',
        rest = metric :: rest'
        ∧ ∀ w, (op w).2 = World (services w)
                            (calls w ++ [Call h (Metric.name metric) response])
               ∧ match (op w).1 with
                 | Ok x => follows h response rest' (k x)
                 | Raise _ => rest' = []
                 end
  end.

(** A scoring task that has not begun: its first operation constructs
    its service object, and the rest calls the metrics on it. *)
Definition starts (self : ValidateScorer.t) (response : LLMResponse.t)
    (t : task RunData.t) : Prop :=
  match t with
  | Return _ => False
  | Do op k =>
      ∀ w, ∃ x, op w = (Ok x, World (services w ++ [judge self]) (calls w))
                ∧ follows (length (services w)) response
                    (attempted (ValidateScorer.metrics self) response (judge self))
                    (k x)
  end.

(** What every reachable state of the pool satisfies, when the call for
    [a] ends in [f a]: one future per call; the caller has read a prefix
    of the futures, all values; the exception it met is in the next
    future; a completed future holds the result of its call; a running
    call has an empty future, is not queued and ends in its result; a
    queued call has an empty future and is queued once. *)
Record pool_inv {A B} (f : A → result B) (args : list A) (s : pool B) : Prop := PoolInv {
  inv_length : length (futures s) = length args;
  inv_collected : ∀ j b,
    collected s !! j = Some b → futures s !! j = Some (Some (Ok b));
  inv_failure : ∀ e,
    failure s = Some e → futures s !! length (collected s) = Some (Some (Raise e));
  inv_done : ∀ i r,
    futures s !! i = Some (Some r) → ∃ a, args !! i = Some a ∧ r = f a;
  inv_running : ∀ i t,
    running s !! i = Some t →
    futures s !! i = Some None ∧ (i ∉ queue s)
    ∧ ∃ a, args !! i = Some a ∧ yields t (f a);
  inv_queue : ∀ i, i ∈ queue s → futures s !! i = Some None;
  inv_NoDup : NoDup (queue s)
}.

(** What every reachable state of the scoring pool satisfies, with
    [order] the responses whose task has constructed its service object,
    in the order of construction, and [new] the calls made since the
    start: one service object per response of [order]; the calls are on
    these objects; a running task that has not constructed its object
    has not begun; the calls on the [k]-th new object are the first
    metric calls of the [k]-th response of [order], and its task, if
    running, goes on with the others; a queued call has constructed
    nothing, a completed one has. *)
Record scoring_inv (self : ValidateScorer.t) (responses : list LLMResponse.t)
    (w0 : world) (order : list nat) (new : list call) (s : pool RunData.t)
    : Prop := ScoringInv {
  sw_services :
    services (shared s) = services w0 ++ replicate (length order) (judge self);
  sw_NoDup : NoDup order;
  sw_calls : calls (shared s) = calls w0 ++ new;
  sw_bound :
    Forall (λ c, length (services w0) ≤ call_service c
                 < length (services w0) + length order)%nat new;
  sw_fresh : ∀ i t,
    running s !! i = Some t → i ∉ order →
    ∃ response, responses !! i = Some response ∧ starts self response t;
  sw_owned : ∀ k i,
    order !! k = Some i →
    ∃ response called rest,
      responses !! i = Some response
      ∧ attempted (ValidateScorer.metrics self) response (judge self) = called ++ rest
      ∧ calls_on (length (services w0) + k) new
        = (λ metric, Call (length (services w0) + k) (Metric.name metric) response)
            <$> called
      ∧ match running s !! i with
        | Some t => follows (length (services w0) + k) response rest t
        | None => rest = []
        end;
  sw_queue : ∀ i, i ∈ queue s → i ∉ order;
  sw_done : ∀ i r, futures s !! i = Some (Some r) → i ∈ order
}.





(** ** Example inputs *)

Definition constant (name : string) (value : float) : Metric.t :=
  Metric.mk name (λ _ _, Ok value).

(** 1.0 when the answer is the reference answer, 0.5 otherwise; the
    judge is unavailable for the answer ["?"]. *)
Definition exact_match (name : string) : Metric.t :=
  Metric.mk name
    (λ response _,
       if decide (LLMResponse.llm_answer response = "?")
       then Raise (Exception "judge unavailable")
       else if decide (LLMResponse.llm_answer response
                       = BenchmarkItem.answer (LLMResponse.benchmark_item response))
       then Ok 1%float else Ok 0.5%float).

Definition example_scorer : ValidateScorer.t :=
  ValidateScorer.mk [exact_match "A"; constant "B" 1%float] "gpt-4-turbo-preview".

(** Two metrics named ["A"]. *)
Definition duplicate_scorer : ValidateScorer.t :=
  ValidateScorer.mk
    [constant "A" 0.5%float; constant "B" 1%float; constant "A" 0.25%float]
    "gpt-4-turbo-preview".

Definition example_items : list BenchmarkItem.t :=
  [BenchmarkItem.mk "2+2?" "4" None;
   BenchmarkItem.mk "3+3?" "6" None].

(** Answers ["4"] to everything but ["boom?"], for which it raises. *)
Definition example_callback (question : string) : result (string * list string) :=
  if decide (question = "boom?") then Raise (Exception "callback failed")
  else Ok ("4", ["math context"]).

Definition failing_items : list BenchmarkItem.t :=
  [BenchmarkItem.mk "2+2?" "4" None;
   BenchmarkItem.mk "boom?" "6" None;
   BenchmarkItem.mk "4+4?" "8" None].



Definition example_responses : list LLMResponse.t :=
  (λ item, LLMResponse.mk "4" ["math context"] item) <$> example_items.

(** Two workers in the generation stage; the second callback returns
    before the first is called. *)
Definition out_of_order : list event :=
  [Start; Start; Work 1; Finish 1; Work 0; Finish 0; Collect; Collect].

(** Two workers in the scoring stage, two metrics.  The task of the
    second response constructs its service object first; the metric
    calls of the two tasks alternate; the second task completes first. *)
Definition interleaved : list event :=
  [Start; Start; Work 1; Work 0; Work 0; Work 1; Work 1; Work 0;
   Finish 1; Finish 0; Collect; Collect].

(** What [example_scorer] returns for [example_responses], and the
    world [interleaved] leaves: the second response is scored with the
    first service object, the first response with the second. *)
Definition example_run_data : list RunData.t :=
  [RunData.mk (<["A" := 1%float]> {["B" := 1%float]}) "2+2?" "4" "4" ["math context"];
   RunData.mk (<["A" := 0.5%float]> {["B" := 1%float]}) "3+3?" "6" "4" ["math context"]].

Definition example_run : Run.t :=
  Run.mk (<["A" := 0.75%float]> {["B" := 1%float]}) example_run_data None.

Definition example_world : world :=
  World [OpenAIService.mk "gpt-4-turbo-preview"; OpenAIService.mk "gpt-4-turbo-preview"]
        [Call 1 "A" (LLMResponse.mk "4" ["math context"] (BenchmarkItem.mk "2+2?" "4" None));
         Call 0 "A" (LLMResponse.mk "4" ["math context"] (BenchmarkItem.mk "3+3?" "6" None));
         Call 0 "B" (LLMResponse.mk "4" ["math context"] (BenchmarkItem.mk "3+3?" "6" None));
         Call 1 "B" (LLMResponse.mk "4" ["math context"] (BenchmarkItem.mk "2+2?" "4" None))].

(** One worker, three metrics: each task constructs its service object,
    calls the metrics, completes and is read before the next starts. *)
Definition in_order : list event :=
  [Start; Work 0; Work 0; Work 0; Work 0; Finish 0; Collect;
   Start; Work 1; Work 1; Work 1; Work 1; Finish 1; Collect].




(** What [duplicate_scorer] returns for [example_responses]. *)
Definition duplicate_run : Run.t :=
  Run.mk (<["A" := 0.25%float]> {["B" := 1%float]})
    [RunData.mk (<["A" := 0.25%float]> {["B" := 1%float]}) "2+2?" "4" "4" ["math context"];
     RunData.mk (<["A" := 0.25%float]> {["B" := 1%float]}) "3+3?" "6" "4" ["math context"]]
    None.

Definition duplicate_world : world :=
  (score_run_reference duplicate_scorer example_responses empty_world).2.


(** Two entries with scores for different metrics. *)
Definition disjoint_entries : list RunData.t :=
  [RunData.mk {["A" := 0.5%float]} "q1" "a1" "x1" [];
   RunData.mk {["B" := 1%float]} "q2" "a2" "x2" []].



(** A metric that raises whatever the response. *)
Definition broken (name : string) : Metric.t :=
  Metric.mk name (λ _ _, Raise (Exception "judge unavailable")).

(** The second of three metrics raises. *)
Definition broken_scorer : ValidateScorer.t :=
  ValidateScorer.mk [constant "A" 0.5%float; broken "B"; constant "C" 1%float]
    "gpt-4-turbo-preview".



(** A metric whose judge is exhausted: it raises [StopIteration]. *)
Definition exhausted (name : string) : Metric.t :=
  Metric.mk name (λ _ _, Raise (StopIteration "")).

Definition exhausted_scorer : ValidateScorer.t :=
  ValidateScorer.mk [exhausted "A"] "gpt-4-turbo-preview".

(** Two workers, one metric that raises; the second task completes
    first, then the caller reads the first future, meets its exception
    and cancels the second, which is done. *)
Definition second_first : list event :=
  [Start; Start; Work 1; Work 1; Finish 1; Work 0; Work 0; Finish 0; Collect; Cancel].

Definition two_answers : list LLMResponse.t :=
  [LLMResponse.mk "first" [] (BenchmarkItem.mk "q1" "a1" None);
   LLMResponse.mk "second" [] (BenchmarkItem.mk "q2" "a2" None)].

(** * Properties *)

(** ** The aggregation *)

Section aggregation.
Implicit Types (acc : gmap string float * gmap string Z) (item : RunData.t).
Implicit Types (run_data : list RunData.t) (key : string).

(** One pass of the inner loop touches a key once if the entry has it,
    and not at all otherwise. *)
Lemma add_item_lookup acc item key :
  (add_item acc item).1 !! key =
    match RunData.scores item !! key with
    | Some score => Some (PrimFloat.add (defaultdict_get 0%float acc.1 key) score)
    | None => acc.1 !! key
    end
  ∧ (add_item acc item).2 !! key =
    match RunData.scores item !! key with
    | Some _ => Some (defaultdict_get 0 acc.2 key + 1)
    | None => acc.2 !! key
    end.
Proof.
  unfold add_item.
  apply (map_fold_weak_ind (λ r (m : gmap string float),
    r.1 !! key = match m !! key with
                 | Some score => Some (PrimFloat.add (defaultdict_get 0%float acc.1 key) score)
                 | None => acc.1 !! key
                 end
    ∧ r.2 !! key = match m !! key with
                   | Some _ => Some (defaultdict_get 0 acc.2 key + 1)
                   | None => acc.2 !! key
                   end)).
  - by rewrite lookup_empty.
  - intros i x m [t n] Hi [Ht Hn]; simpl in *.
    destruct (decide (i = key)) as [->|Hne].
    + rewrite Hi in Ht, Hn. rewrite !lookup_insert_eq.
      unfold defaultdict_get. by rewrite Ht, Hn.
    + by rewrite !lookup_insert_ne.
Qed.

Lemma foldl_add_item_lookup run_data acc key :
  (foldl add_item acc run_data).1 !! key =
    match observations key run_data with
    | [] => acc.1 !! key
    | xs => Some (foldl PrimFloat.add (defaultdict_get 0%float acc.1 key) xs)
    end
  ∧ (foldl add_item acc run_data).2 !! key =
    match observations key run_data with
    | [] => acc.2 !! key
    | xs => Some (defaultdict_get 0 acc.2 key + Z.of_nat (length xs))
    end.
Proof.
  revert acc. induction run_data as [|item run_data IH]; intros acc; [done|].
  simpl. destruct (IH (add_item acc item)) as [-> ->].
  destruct (add_item_lookup acc item key) as [Ht Hn].
  unfold observations; simpl. fold (observations key run_data).
  unfold defaultdict_get at 1 3. rewrite Ht, Hn.
  destruct (RunData.scores item !! key) as [score|]; simpl.
  - destruct (observations key run_data) as [|x xs]; simpl; [done|].
    split; f_equal; lia.
  - done.
Qed.

(** The running sum and the running count of a metric after the loop. *)
Lemma accumulate_lookup run_data key :
  (accumulate run_data).1 !! key =
    match observations key run_data with
    | [] => None
    | xs => Some (float_sum xs)
    end
  ∧ (accumulate run_data).2 !! key =
    match observations key run_data with
    | [] => None
    | xs => Some (Z.of_nat (length xs))
    end.
Proof.
  unfold accumulate.
  destruct (foldl_add_item_lookup run_data (∅, ∅) key) as [-> ->].
  unfold defaultdict_get, float_sum; simpl. rewrite !lookup_empty; simpl.
  by destruct (observations key run_data).
Qed.

Lemma accumulate_count_positive run_data key total :
  (accumulate run_data).1 !! key = Some total →
  1 ≤ defaultdict_get 0 (accumulate run_data).2 key.
Proof.
  destruct (accumulate_lookup run_data key) as [Ht Hn].
  unfold defaultdict_get. rewrite Ht, Hn.
  destruct (observations key run_data); [done|]. simpl. lia.
Qed.

(** The comprehension divides every total when no count is zero. *)
Lemma divide_totals_lookup (total_scores : gmap string float) (num_scores : gmap string Z) :
  (∀ key total, total_scores !! key = Some total →
                defaultdict_get 0 num_scores key ≠ 0) →
  ∃ overall, divide_totals total_scores num_scores = Ok overall
    ∧ ∀ key, overall !! key =
        (λ total, PrimFloat.div total (int_to_float (defaultdict_get 0 num_scores key)))
          <$> total_scores !! key.
Proof.
  unfold divide_totals.
  apply (map_fold_weak_ind (λ r (m : gmap string float),
    (∀ key total, m !! key = Some total → defaultdict_get 0 num_scores key ≠ 0) →
    ∃ overall, r = Ok overall
      ∧ ∀ key, overall !! key =
          (λ total, PrimFloat.div total (int_to_float (defaultdict_get 0 num_scores key)))
            <$> m !! key)).
  - intros _. exists ∅. split; [done|]. intros key. by rewrite !lookup_empty.
  - intros i x m r Hi IH Hnz.
    destruct IH as (overall & -> & Hlook).
    { intros key total Hkey. apply (Hnz key total).
      rewrite lookup_insert_ne; [done|]. intros ->. congruence. }
    simpl. unfold truediv.
    destruct (decide (defaultdict_get 0 num_scores i = 0)) as [Hz|_].
    { exfalso. apply (Hnz i x); [|done]. by rewrite lookup_insert_eq. }
    simpl. eexists; split; [done|]. intros key.
    destruct (decide (i = key)) as [->|Hne].
    + by rewrite !lookup_insert_eq.
    + rewrite !lookup_insert_ne by done. apply Hlook.
Qed.

(** The aggregation never raises, and each entry of its result is the
    mean of the metric's observations. *)
Lemma aggregate_lookup run_data :
  ∃ overall, aggregate run_data = Ok overall
    ∧ ∀ key, overall !! key =
        match observations key run_data with
        | [] => None
        | xs => Some (arithmetic_mean xs)
        end.
Proof.
  unfold aggregate.
  destruct (accumulate run_data) as [total_scores num_scores] eqn:Hacc.
  destruct (divide_totals_lookup total_scores num_scores) as (overall & Hdiv & Hlook).
  { intros key total Hkey.
    pose proof (accumulate_count_positive run_data key total) as Hpos.
    rewrite Hacc in Hpos. simpl in Hpos. specialize (Hpos Hkey). lia. }
  exists overall. split; [done|]. intros key. rewrite Hlook.
  destruct (accumulate_lookup run_data key) as [Ht Hn].
  rewrite Hacc in Ht, Hn; simpl in Ht, Hn.
  unfold defaultdict_get. rewrite Ht, Hn.
  by destruct (observations key run_data).
Qed.

Lemma observations_nil_iff run_data key :
  observations key run_data = [] ↔
  ∀ item, item ∈ run_data → RunData.scores item !! key = None.
Proof.
  unfold observations. induction run_data as [|item run_data IH]; simpl.
  - split; [|done]. intros _ item Hin. by apply elem_of_nil in Hin.
  - destruct (RunData.scores item !! key) eqn:Hkey; simpl.
    + split; [done|]. intros Hall.
      specialize (Hall item (list_elem_of_here _ _)). congruence.
    + rewrite IH. split.
      * intros Hall item' [->|Hin]%elem_of_cons; auto.
      * intros Hall item' Hin. apply Hall. by apply list_elem_of_further.
Qed.

Lemma elem_of_observed_metrics run_data key :
  key ∈ observed_metrics run_data ↔
  ∃ item, item ∈ run_data ∧ is_Some (RunData.scores item !! key).
Proof.
  unfold observed_metrics. rewrite elem_of_union_list. split.
  - intros (X & HX & Hkey). apply list_elem_of_fmap in HX as (item & -> & Hin).
    exists item. split; [done|]. by apply elem_of_dom.
  - intros (item & Hin & Hkey). exists (dom (RunData.scores item)). split.
    + apply list_elem_of_fmap. by exists item.
    + by apply elem_of_dom.
Qed.

Lemma reference_overall_scores_lookup run_data key :
  reference_overall_scores run_data !! key =
    match observations key run_data with
    | [] => None
    | xs => Some (arithmetic_mean xs)
    end.
Proof.
  unfold reference_overall_scores.
  destruct (observations key run_data) as [|x xs] eqn:Hobs.
  - apply eq_None_not_Some. intros [v Hv].
    apply lookup_set_to_map in Hv as (k & Hk & Heq); [|by intros ?? _ _ [=]].
    injection Heq as -> _.
    apply elem_of_observed_metrics in Hk as (item & Hin & [v' Hv']).
    pose proof (proj1 (observations_nil_iff run_data key) Hobs item Hin). congruence.
  - apply lookup_set_to_map; [by intros ?? _ _ [=]|].
    exists key. split; [|by rewrite Hobs].
    apply elem_of_observed_metrics.
    assert (x ∈ observations key run_data) as Hx by (rewrite Hobs; left).
    apply list_elem_of_omap in Hx as (item & Hin & Hkey). by exists item.
Qed.

(** The aggregation of the code is the reference aggregation. *)
Lemma aggregate_reference run_data :
  aggregate run_data = Ok (reference_overall_scores run_data).
Proof.
  destruct (aggregate_lookup run_data) as (overall & -> & Hlook).
  f_equal. apply map_eq. intros key.
  by rewrite Hlook, reference_overall_scores_lookup.
Qed.
End aggregation.


(** ** Tasks *)

Section tasks.
Context {A B : Type}.
Implicit Types (w : world).

Lemma run_task_bind (c : task A) (k : A → task B) w :
  (x <- c ;; k x) w =
  match c w with
  | (Ok a, w') => k a w'
  | (Raise e, w') => (Raise e, w')
  end.
Proof.
  revert w. induction c as [[a|e]|X op k' IH]; intros w; simpl; [done..|].
  destruct (op w) as [[x|e] w']; [apply IH|done].
Qed.


Lemma yields_bind (c : task A) (k : A → task B) (rc : result A) (r : result B) :
  yields c rc →
  match rc with
  | Ok a => yields (k a) r
  | Raise e => r = Raise e
  end →
  yields (x <- c ;; k x) r.
Proof.
  induction c as [[a|e]|X op k' IH]; simpl.
  - by intros <-.
  - by intros <- ->.
  - intros Hc Hr w. specialize (Hc w).
    destruct (op w).1 as [x|e]; [by apply IH|].
    by subst rc.
Qed.
End tasks.

(** ** One scoring task *)

Section task.
Variable self : ValidateScorer.t.
Implicit Types (response : LLMResponse.t) (w : world) (metrics : list Metric.t).

Lemma for_each_metrics metrics response h scores w :
  for_each
    (λ scores metric,
       score <- Metric_score metric response (Instance h (judge self)) ;;
       ret (<[Metric.name metric := score]> scores))
    scores metrics w
  = (score_all self metrics response scores,
     World (services w)
           (calls w ++ ((λ metric, Call h (Metric.name metric) response)
                          <$> attempted metrics response (judge self)))).
Proof.
  revert scores w. induction metrics as [|metric metrics IH]; intros scores w.
  - simpl. rewrite app_nil_r. by destruct w.
  - cbn [for_each]. rewrite run_task_bind. simpl.
    destruct (Metric.score metric response (judge self)) as [score|e]; simpl.
    + rewrite IH. simpl. by rewrite <- app_assoc.
    + done.
Qed.

(** What one task returns and what it does to the world, when no other
    task runs in between. *)
Lemma score_item_rundata_eq response w :
  _score_item_rundata self response w =
  (result_bind (score_all self (ValidateScorer.metrics self) response ∅)
     (λ scores,
        Ok (RunData.mk scores
              (BenchmarkItem.question (LLMResponse.benchmark_item response))
              (BenchmarkItem.answer (LLMResponse.benchmark_item response))
              (LLMResponse.llm_answer response)
              (LLMResponse.llm_context_list response))),
   World (services w ++ [judge self])
         (calls w ++ task_calls self (length (services w)) response)).
Proof.
  unfold _score_item_rundata. rewrite run_task_bind.
  unfold OpenAIService_new, atomic. cbn [run_task ret length].
  rewrite run_task_bind. fold (judge self).
  rewrite for_each_metrics. cbn [services calls].
  unfold task_calls.
  by destruct (score_all self (ValidateScorer.metrics self) response ∅).
Qed.

Lemma score_item_rundata_oblivious response w w' :
  (_score_item_rundata self response w).1 = (_score_item_rundata self response w').1.
Proof. by rewrite !score_item_rundata_eq. Qed.

Lemma rundata_of_result response w :
  (_score_item_rundata self response w).1 = rundata_of self response.
Proof. apply score_item_rundata_oblivious. Qed.

Lemma for_each_yields metrics response h scores :
  yields
    (for_each
       (λ scores metric,
          score <- Metric_score metric response (Instance h (judge self)) ;;
          ret (<[Metric.name metric := score]> scores))
       scores metrics)
    (score_all self metrics response scores).
Proof.
  revert scores. induction metrics as [|metric metrics IH]; intros scores; [done|].
  simpl. intros w. simpl.
  destruct (Metric.score metric response (judge self)) as [score|e]; simpl; [|done].
  apply IH.
Qed.

(** The task of a response ends in the same result whatever the other
    tasks do between its operations. *)
Lemma score_item_rundata_yields response :
  yields (_score_item_rundata self response) (rundata_of self response).
Proof.
  unfold rundata_of. rewrite score_item_rundata_eq. simpl.
  unfold _score_item_rundata. simpl. intros w. simpl. fold (judge self).
  eapply yields_bind; [apply for_each_yields|].
  by destruct (score_all self (ValidateScorer.metrics self) response ∅).
Qed.

Lemma for_each_follows metrics response h scores (k : gmap string float → task RunData.t) :
  (∀ scores', ∃ r, k scores' = Return r) →
  follows h response (attempted metrics response (judge self))
    (scores' <- for_each
       (λ scores metric,
          score <- Metric_score metric response (Instance h (judge self)) ;;
          ret (<[Metric.name metric := score]> scores))
       scores metrics ;;
     k scores').
Proof.
  intros Hk. revert scores.
  induction metrics as [|metric metrics IH]; intros scores; simpl.
  - by destruct (Hk scores) as [r ->].
  - eexists _, _. split; [done|]. intros w. simpl. split; [done|].
    destruct (Metric.score metric response (judge self)) as [score|e]; simpl; [|done].
    apply IH.
Qed.

Lemma score_item_rundata_starts response :
  starts self response (_score_item_rundata self response).
Proof.
  unfold _score_item_rundata. simpl. intros w. eexists. split; [done|].
  simpl. fold (judge self). apply for_each_follows. intros scores'. by eexists.
Qed.
Lemma score_all_Ok metrics response scores scores' :
  score_all self metrics response scores = Ok scores' →
  Forall (λ metric, is_Ok (Metric.score metric response (judge self))) metrics
  ∧ ∀ name, scores' !! name =
      match last (named name metrics) with
      | Some metric => returned (Metric.score metric response (judge self))
      | None => scores !! name
      end.
Proof.
  revert scores. induction metrics as [|metric metrics IH]; intros scores; simpl.
  - intros [= ->]. split; [constructor|done].
  - destruct (Metric.score metric response (judge self)) as [score|e] eqn:Hscore;
      simpl; [|done].
    intros Hrest. destruct (IH _ Hrest) as [Hall Hlook]. split.
    + constructor; [by exists score|done].
    + intros name. rewrite Hlook. unfold named. rewrite filter_cons.
      fold (named name metrics). case_decide as Hname.
      * rewrite last_cons. destruct (last (named name metrics)); [done|].
        rewrite Hscore. subst name. by rewrite lookup_insert_eq.
      * by rewrite lookup_insert_ne.
Qed.

Lemma score_all_Raise metrics response scores e :
  score_all self metrics response scores = Raise e →
  ∃ before metric after,
    metrics = before ++ metric :: after
    ∧ Forall (λ metric, is_Ok (Metric.score metric response (judge self))) before
    ∧ Metric.score metric response (judge self) = Raise e.
Proof.
  revert scores. induction metrics as [|metric metrics IH]; intros scores; simpl; [done|].
  destruct (Metric.score metric response (judge self)) as [score|e'] eqn:Hscore; simpl.
  - intros Hrest. destruct (IH _ Hrest) as (before & m & after & -> & Hall & Hm).
    exists (metric :: before), m, after. split; [done|]. split; [|done].
    constructor; [by exists score|done].
  - intros [= ->]. exists [], metric, metrics. by repeat split.
Qed.

Lemma score_all_dom metrics response scores scores' :
  score_all self metrics response scores = Ok scores' →
  dom scores' = dom scores ∪ list_to_set (Metric.name <$> metrics).
Proof.
  revert scores. induction metrics as [|metric metrics IH]; intros scores; simpl.
  - intros [= ->]. csimpl. by rewrite (right_id_L ∅ (∪)).
  - destruct (Metric.score metric response (judge self)) as [score|e]; simpl; [|done].
    intros Hrest. rewrite (IH _ Hrest), dom_insert_L.
    by rewrite (comm_L (∪) {[Metric.name metric]} (dom scores)), (assoc_L (∪)).
Qed.

Lemma attempted_all metrics response :
  Forall (λ metric, is_Ok (Metric.score metric response (judge self))) metrics →
  attempted metrics response (judge self) = metrics.
Proof.
  induction 1 as [|metric metrics [v Hv] _ IH]; simpl; [done|].
  by rewrite Hv, IH.
Qed.
Lemma attempted_cases metrics response scores :
  attempted metrics response (judge self) `prefix_of` metrics
  ∧ match score_all self metrics response scores with
    | Ok _ => attempted metrics response (judge self) = metrics
    | Raise e =>
        ∃ before metric,
          attempted metrics response (judge self) = before ++ [metric]
          ∧ Forall (λ m, is_Ok (Metric.score m response (judge self))) before
          ∧ Metric.score metric response (judge self) = Raise e
    end.
Proof.
  revert scores. induction metrics as [|metric metrics IH]; intros scores; simpl.
  - split; [done|done].
  - destruct (Metric.score metric response (judge self)) as [v|e] eqn:Hv; simpl.
    + destruct (IH (<[Metric.name metric := v]> scores)) as [Hpre Hcase].
      split; [by apply prefix_cons|].
      destruct (score_all self metrics response (<[Metric.name metric:=v]> scores))
        as [scores'|e].
      * by rewrite Hcase.
      * destruct Hcase as (before & m & Heq & Hall & Hm).
        exists (metric :: before), m. rewrite Heq. split; [done|]. split; [|done].
        constructor; [by exists v|done].
    + split; [apply prefix_cons, prefix_nil|].
      exists [], metric. by repeat split.
Qed.
End task.

(** ** The pool *)

Lemma sequence_Ok {B} (rs : list (result B)) (bs : list B) :
  rs = Ok <$> bs → sequence rs = Ok bs.
Proof.
  intros ->. induction bs as [|b bs IH]; csimpl; [done|]. by rewrite IH.
Qed.

Lemma sequence_Raise {B} (bs : list B) (e : exn) (rs : list (result B)) :
  sequence ((Ok <$> bs) ++ Raise e :: rs) = Raise e.
Proof. induction bs as [|b bs IH]; csimpl; [done|]. by rewrite IH. Qed.

Lemma sequence_Ok_inv {B} (rs : list (result B)) (bs : list B) :
  sequence rs = Ok bs → rs = Ok <$> bs.
Proof.
  revert bs. induction rs as [|[b|e] rs IH]; intros bs; simpl; [by intros [= <-]| |done].
  destruct (sequence rs) as [bs'|e]; simpl; [|done].
  intros [= <-]. csimpl. by rewrite (IH bs').
Qed.

Lemma sequence_Ok_Forall2 {A B} (f : A → result B) (xs : list A) (bs : list B) :
  sequence (f <$> xs) = Ok bs ↔ Forall2 (λ x b, f x = Ok b) xs bs.
Proof.
  split.
  - intros Hseq%sequence_Ok_inv. revert bs Hseq.
    induction xs as [|x xs IH]; intros [|b bs]; csimpl; try done.
    intros [= Hx Hxs]. constructor; [done|]. by apply IH.
  - intros Hall. apply sequence_Ok. induction Hall; csimpl; [done|]. by f_equal.
Qed.



Lemma generator_result_Ok {B} (r : result B) b :
  generator_result r = Ok b ↔ r = Ok b.
Proof. destruct r; simpl; split; congruence. Qed.

Section pool.
Context {A B : Type}.
Variable max_workers : Z.
Variable fn : A → task B.
Variable args : list A.
Implicit Types (s : pool B) (schedule : list event) (w : world).

Lemma executor_map_no_workers schedule w out :
  max_workers ≤ 0 →
  executor_map max_workers fn args schedule w = Some out ↔
  schedule = []
  ∧ out = (Raise (ValueError "max_workers must be greater than 0"), w).
Proof.
  intros Hle. unfold executor_map. rewrite decide_True by done.
  destruct schedule; [|by split; [|intros [[=] _]]].
  split; [by intros [= <-]|by intros [_ ->]].
Qed.

Lemma executor_map_run schedule w out w' :
  0 < max_workers →
  executor_map max_workers fn args schedule w = Some (out, w') →
  ∃ s, run max_workers fn args schedule (submit_all args w) = Some s
       ∧ finished s = true ∧ out = outcome s ∧ w' = shared s.
Proof.
  intros Hpos. unfold executor_map. case_decide; [lia|].
  destruct (run max_workers fn args schedule (submit_all args w)) as [s|]; [|done].
  destruct (finished s) eqn:Hfin; [|done]. intros [= <- <-]. by exists s.
Qed.

Lemma finished_inv s :
  finished s = true →
  queue s = [] ∧ running s = ∅
  ∧ match failure s with
    | Some _ => to_cancel s = []
    | None => length (collected s) = length (futures s)
    end.
Proof.
  unfold finished. intros [[Hq Hr]%andb_true_iff Hf]%andb_true_iff.
  apply bool_decide_eq_true in Hq, Hr. split; [done|]. split; [done|].
  destruct (failure s); by apply bool_decide_eq_true in Hf.
Qed.

(** *** The result does not depend on the schedule *)

Section result.
Variable f : A → result B.
Hypothesis fn_yields : ∀ a, yields (fn a) (f a).


Lemma submit_all_inv w : pool_inv f args (submit_all args w).
Proof.
  split; simpl.
  - by rewrite length_replicate.
  - intros j b Hj. by rewrite lookup_nil in Hj.
  - done.
  - intros i r [[=] _]%lookup_replicate.
  - intros i t Hi. by rewrite lookup_empty in Hi.
  - intros i Hi%elem_of_seq. apply lookup_replicate. split; [done|lia].
  - apply NoDup_seq.
Qed.

Lemma step_inv e s s' :
  pool_inv f args s → step max_workers fn args e s = Some s' → pool_inv f args s'.
Proof.
  intros [Hlen Hcol Hfail Hdone Hrun Hq Hnd] Hstep.
  destruct e as [|i|i| |]; simpl in Hstep.
  - (* a worker takes the head of the queue *)
    destruct (queue s) as [|i rest] eqn:Hqs; [done|].
    destruct (args !! i) as [a|] eqn:Ha; [|done].
    case_decide; [|done]. injection Hstep as <-.
    apply NoDup_cons in Hnd as [Hni Hnd].
    split; simpl; try done.
    + intros j t Hj. destruct (decide (i = j)) as [<-|Hne].
      * rewrite lookup_insert_eq in Hj. injection Hj as <-.
        split; [apply Hq; left|]. split; [done|]. by exists a.
      * rewrite lookup_insert_ne in Hj by done.
        destruct (Hrun j t Hj) as (Hf & Hnq & Hy).
        split; [done|]. split; [|done]. intros Hin. apply Hnq. by right.
    + intros j Hj. apply Hq. by right.
  - (* the worker of call [i] does one operation *)
    destruct (running s !! i) as [[r|X op k]|] eqn:Hi; [done| |done].
    destruct (op (shared s)) as [r w'] eqn:Hop. injection Hstep as <-.
    split; simpl; try done.
    intros j t Hj. destruct (decide (i = j)) as [<-|Hne].
    + rewrite lookup_insert_eq in Hj. injection Hj as <-.
      destruct (Hrun i _ Hi) as (Hf & Hnq & a & Ha & Hy).
      split; [done|]. split; [done|]. exists a. split; [done|].
      simpl in Hy. specialize (Hy (shared s)). rewrite Hop in Hy. simpl in Hy.
      by destruct r.
    + rewrite lookup_insert_ne in Hj by done. by apply Hrun.
  - (* call [i] completes *)
    destruct (running s !! i) as [[r|X op k]|] eqn:Hi; [|done..].
    injection Hstep as <-.
    destruct (Hrun i _ Hi) as (Hf & Hnq & a & Ha & Hy). simpl in Hy. subst r.
    split; simpl.
    + by rewrite length_insert.
    + intros j b Hj. rewrite list_lookup_insert_ne; [by apply Hcol|].
      intros ->. apply Hcol in Hj. congruence.
    + intros e He. rewrite list_lookup_insert_ne; [by apply Hfail|].
      intros Heq. apply Hfail in He. rewrite <- Heq in He. congruence.
    + intros j r' Hj. destruct (decide (i = j)) as [<-|Hne].
      * rewrite list_lookup_insert_eq in Hj by (by eapply lookup_lt_Some).
        injection Hj as <-. by exists a.
      * rewrite list_lookup_insert_ne in Hj by done. by apply Hdone.
    + intros j t [Hne Hj]%lookup_delete_Some.
      rewrite list_lookup_insert_ne by done. by apply Hrun.
    + intros j Hj. rewrite list_lookup_insert_ne; [by apply Hq|]. by intros <-.
    + done.
  - (* the caller reads the next future *)
    destruct (failure s) as [e|] eqn:Hf; [done|].
    destruct (futures s !! length (collected s)) as [[[b|e]|]|] eqn:Hnext; try done.
    + injection Hstep as <-. split; simpl; try done.
      intros j b' Hj. apply lookup_app_Some in Hj as [Hj|[Hge Hj]]; [by apply Hcol|].
      apply list_lookup_singleton_Some in Hj as [Hj ->].
      by replace j with (length (collected s)) by lia.
    + injection Hstep as <-. split; simpl; try done.
      by intros e' [= <-].
  - (* the caller cancels a future *)
    destruct (to_cancel s) as [|j rest]; [done|]. injection Hstep as <-.
    split; simpl; try done.
    + intros i t Hi. destruct (Hrun i t Hi) as (Hf & Hnq & Hy).
      split; [done|]. split; [|done]. intros Hin%list_elem_of_filter. by destruct Hin.
    + intros i Hi%list_elem_of_filter. apply Hq. by destruct Hi.
    + by apply NoDup_filter.
Qed.

Lemma run_inv schedule s s' :
  pool_inv f args s → run max_workers fn args schedule s = Some s' → pool_inv f args s'.
Proof.
  revert s. induction schedule as [|e schedule IH]; intros s Hinv; simpl.
  - by intros [= <-].
  - destruct (step max_workers fn args e s) as [s1|] eqn:Hstep; [|done].
    apply IH. by eapply step_inv.
Qed.

Lemma inv_prefix s :
  pool_inv f args s →
  f <$> take (length (collected s)) args = Ok <$> collected s.
Proof.
  intros [Hlen Hcol _ Hdone _ _ _].
  assert (length (collected s) ≤ length args)%nat as Hle.
  { destruct (collected s) as [|b0 bs] eqn:Hc using rev_ind; [simpl; lia|].
    clear IHbs. rewrite length_app. simpl.
    assert (futures s !! length bs = Some (Some (Ok b0))) as Hlast.
    { apply Hcol. by rewrite lookup_app_r, Nat.sub_diag. }
    apply lookup_lt_Some in Hlast. lia. }
  apply list_eq. intros j. rewrite !list_lookup_fmap.
  destruct (collected s !! j) as [b|] eqn:Hj; simpl.
  - pose proof (lookup_lt_Some _ _ _ Hj) as Hlt.
    rewrite lookup_take_lt by done.
    destruct (Hdone j (Ok b) (Hcol j b Hj)) as (a & -> & Hfa). simpl. by rewrite Hfa.
  - apply lookup_ge_None in Hj.
    rewrite lookup_take_ge by done. done.
Qed.

Lemma finished_outcome s :
  pool_inv f args s → finished s = true →
  outcome s = generator_result (sequence (f <$> args)).
Proof.
  intros Hinv Hfin. pose proof (inv_prefix s Hinv) as Hpre.
  destruct Hinv as [Hlen Hcol Hfail Hdone _ _ _].
  apply finished_inv in Hfin as (_ & _ & Hfin).
  unfold outcome. destruct (failure s) as [e|] eqn:Hf.
  - specialize (Hfail e eq_refl).
    destruct (Hdone _ _ Hfail) as (a & Ha & Hfa).
    rewrite <- (take_drop_middle args (length (collected s)) a Ha).
    rewrite fmap_app, fmap_cons, Hpre, <- Hfa.
    by rewrite sequence_Raise.
  - rewrite Hfin, Hlen, firstn_all in Hpre.
    by rewrite (sequence_Ok _ _ Hpre).
Qed.

(** Whatever the number of workers and the schedule, the caller gets the
    results in the order of the arguments, or the exception of the first
    argument that has one, as it leaves the generator. *)
Lemma executor_map_result schedule w out w' :
  0 < max_workers →
  executor_map max_workers fn args schedule w = Some (out, w') →
  out = generator_result (sequence (f <$> args)).
Proof.
  intros Hpos (s & Hrun & Hfin & -> & _)%executor_map_run; [|done].
  apply finished_outcome; [|done].
  eapply run_inv; [|done]. apply submit_all_inv.
Qed.
End result.

(** *** Calls that leave the world as it is *)

Lemma run_silent schedule s s' :
  (∀ a, silent (fn a)) →
  (∀ i t, running s !! i = Some t → silent t) →
  run max_workers fn args schedule s = Some s' →
  shared s' = shared s.
Proof.
  intros Hfn. revert s. induction schedule as [|e schedule IH]; intros s Hs; simpl.
  - by intros [= <-].
  - destruct (step max_workers fn args e s) as [s1|] eqn:Hstep; [|done].
    intros Hrun. apply IH in Hrun.
    + rewrite Hrun. clear Hrun IH.
      destruct e as [|i|i| |]; simpl in Hstep.
      * destruct (queue s); [done|]. destruct (args !! n); [|done].
        case_decide; [|done]. by injection Hstep as <-.
      * destruct (running s !! i) as [[r|X op k]|] eqn:Hi; [done| |done].
        destruct (Hs i _ Hi (shared s)) as [Hw _].
        destruct (op (shared s)) as [r w']. by injection Hstep as <-.
      * destruct (running s !! i) as [[r|X op k]|]; [|done..].
        by injection Hstep as <-.
      * destruct (failure s); [done|].
        destruct (futures s !! length (collected s)) as [[[b|e]|]|]; try done;
          by injection Hstep as <-.
      * destruct (to_cancel s); [done|]. by injection Hstep as <-.
    + clear Hrun IH. intros j t.
      destruct e as [|i|i| |]; simpl in Hstep.
      * destruct (queue s) as [|i rest]; [done|]. destruct (args !! i) as [a|]; [|done].
        case_decide; [|done]. injection Hstep as <-. simpl.
        intros [[<- <-]|[_ Hj]]%lookup_insert_Some; [apply Hfn|by eapply Hs].
      * destruct (running s !! i) as [[r|X op k]|] eqn:Hi; [done| |done].
        destruct (Hs i _ Hi (shared s)) as [_ Hk].
        destruct (op (shared s)) as [r w']. injection Hstep as <-. simpl.
        intros [[<- <-]|[_ Hj]]%lookup_insert_Some; [|by eapply Hs].
        simpl in Hk. by destruct r.
      * destruct (running s !! i) as [[r|X op k]|]; [|done..].
        injection Hstep as <-. simpl. intros [_ Hj]%lookup_delete_Some. by eapply Hs.
      * destruct (failure s); [done|].
        destruct (futures s !! length (collected s)) as [[[b|e]|]|]; try done;
          injection Hstep as <-; simpl; apply Hs.
      * destruct (to_cancel s); [done|]. injection Hstep as <-. simpl. apply Hs.
Qed.

Lemma executor_map_silent schedule w out w' :
  (∀ a, silent (fn a)) →
  executor_map max_workers fn args schedule w = Some (out, w') → w' = w.
Proof.
  intros Hfn. destruct (decide (0 < max_workers)) as [Hpos|Hneg].
  - intros (s & Hrun & _ & _ & ->)%executor_map_run; [|done].
    apply run_silent in Hrun; [done..|].
    intros i t Hi. simpl in Hi. by rewrite lookup_empty in Hi.
  - intros [_ [= _ <-]]%executor_map_no_workers; [done|lia].
Qed.
End pool.

(** With nothing submitted, the only execution is the empty one. *)
Lemma executor_map_nil {A B} (max_workers : Z) (fn : A → task B) schedule w out :
  0 < max_workers →
  executor_map max_workers fn [] schedule w = Some out ↔
  schedule = [] ∧ out = (Ok [], w).
Proof.
  intros Hpos. unfold executor_map. case_decide; [lia|].
  destruct schedule as [|e schedule]; simpl.
  - split; [by intros [= <-]|by intros [_ ->]].
  - split; [|by intros [[=] _]].
    destruct e; simpl; by rewrite ?lookup_empty.
Qed.

(** ** The schedule of a plain loop *)

Section sequential.
Context {A B : Type}.
Variable max_workers : Z.
Variable fn : A → task B.
Variable args : list A.
Implicit Types (s : pool B) (schedule : list event) (w : world).






End sequential.

(** ** The service objects and the calls made on them *)

Lemma calls_on_app h (l k : list call) :
  calls_on h (l ++ k) = calls_on h l ++ calls_on h k.
Proof. apply filter_app. Qed.

Lemma calls_on_outside h (cs : list call) :
  Forall (λ c, call_service c ≠ h) cs → calls_on h cs = [].
Proof.
  unfold calls_on. induction 1 as [|c cs Hc _ IH]; [done|].
  by rewrite filter_cons, decide_False.
Qed.

Section scoring.
Variable self : ValidateScorer.t.
Variable responses : list LLMResponse.t.
Variable parallelism : Z.
Variable w0 : world.
Implicit Types (s : pool RunData.t) (schedule : list event).
Implicit Types (order : list nat) (new : list call).

Lemma submit_all_scoring :
  scoring_inv self responses w0 [] [] (submit_all responses w0).
Proof.
  split; simpl.
  - by rewrite app_nil_r.
  - constructor.
  - by rewrite app_nil_r.
  - constructor.
  - intros i t Hi. by rewrite lookup_empty in Hi.
  - intros k i Hk. by rewrite lookup_nil in Hk.
  - intros i _ Hi. by apply elem_of_nil in Hi.
  - intros i r [[=] _]%lookup_replicate.
Qed.

Lemma step_scoring e s s' order new :
  pool_inv (rundata_of self) responses s →
  scoring_inv self responses w0 order new s →
  step parallelism (_score_item_rundata self) responses e s = Some s' →
  ∃ order' new', scoring_inv self responses w0 order' new' s'.
Proof.
  intros Hpool [Hsv Hnd Hcalls Hall Hfresh Howned Hqueue Hdone] Hstep.
  destruct e as [|i|i| |]; simpl in Hstep.
  - (* a worker takes the head of the queue: nothing is constructed yet *)
    destruct (queue s) as [|i rest] eqn:Hqs; [done|].
    destruct (responses !! i) as [response|] eqn:Hresp; [|done].
    case_decide; [|done]. injection Hstep as <-.
    assert (i ∉ order) as Hi by (apply Hqueue; left).
    exists order, new. split; simpl; try done.
    + intros j t [[<- <-]|[Hne Hj]]%lookup_insert_Some Hn.
      * exists response. split; [done|]. apply score_item_rundata_starts.
      * by apply Hfresh.
    + intros k j Hk.
      destruct (Howned k j Hk) as (r & called & rest' & Hr & Hatt & Hc & Hrun).
      exists r, called, rest'. split; [done|]. split; [done|]. split; [done|].
      rewrite lookup_insert_ne; [done|].
      intros <-. apply Hi. by eapply list_elem_of_lookup_2.
    + intros j Hj. apply Hqueue. by right.
  - (* one operation of the task of response [i] *)
    destruct (running s !! i) as [[r|X op k]|] eqn:Hi; [done| |done].
    destruct (op (shared s)) as [r w'] eqn:Hop. injection Hstep as <-.
    destruct (decide (i ∈ order)) as [Hin|Hnin].
    + (* a metric call on the service object of the task *)
      apply list_elem_of_lookup in Hin as [k0 Hk0].
      destruct (Howned k0 i Hk0) as (response & called & rest & Hresp & Hatt & Hc & Hrun).
      rewrite Hi in Hrun. simpl in Hrun. destruct Hrun as (metric & rest' & -> & Hop').
      destruct (Hop' (shared s)) as [Hw' Hnext].
      rewrite Hop in Hw', Hnext. simpl in Hw', Hnext. subst w'.
      exists order,
        (new ++ [Call (length (services w0) + k0) (Metric.name metric) response]).
      split; simpl; try done.
      * by rewrite Hcalls, app_assoc.
      * apply Forall_app. split; [done|]. constructor; [|done]. simpl.
        apply lookup_lt_Some in Hk0. lia.
      * intros j t [[<- <-]|[Hne Hj]]%lookup_insert_Some Hn; [|by apply Hfresh].
        destruct Hn. by eapply list_elem_of_lookup_2.
      * intros k1 j Hk1. destruct (decide (j = i)) as [->|Hne].
        -- assert (k1 = k0) as -> by (by eapply NoDup_lookup).
           exists response, (called ++ [metric]), rest'.
           split; [done|]. split; [by rewrite <- app_assoc|]. split.
           ++ rewrite calls_on_app, Hc, fmap_app. f_equal.
              unfold calls_on. by rewrite filter_cons, decide_True.
           ++ rewrite lookup_insert_eq. by destruct r.
        -- destruct (Howned k1 j Hk1)
             as (r' & called' & rest'' & Hr & Hatt' & Hc' & Hrun').
           exists r', called', rest''. split; [done|]. split; [done|]. split.
           ++ rewrite calls_on_app, Hc'. rewrite calls_on_outside, app_nil_r; [done|].
              constructor; [|done]. simpl. intros Heq.
              assert (k0 = k1) as -> by lia. congruence.
           ++ by rewrite lookup_insert_ne.
    + (* the task constructs its service object *)
      destruct (Hfresh i _ Hi Hnin) as (response & Hresp & Hst). simpl in Hst.
      destruct (Hst (shared s)) as (x & Hopx & Hfol).
      rewrite Hop in Hopx. injection Hopx as -> ->.
      assert (length (services (shared s)) = (length (services w0) + length order)%nat)
        as Hlen by (by rewrite Hsv, length_app, length_replicate).
      exists (order ++ [i]), new. split; simpl.
      * rewrite Hsv, length_app. simpl.
        by rewrite Nat.add_1_r, replicate_S_end, app_assoc.
      * apply NoDup_app. split; [done|]. split; [|apply NoDup_singleton].
        by intros j Hj ->%list_elem_of_singleton.
      * done.
      * eapply Forall_impl; [done|].
        intros c Hc. simpl in *. rewrite length_app. simpl. lia.
      * intros j t [[<- <-]|[Hne Hj]]%lookup_insert_Some Hn.
        -- destruct Hn. apply elem_of_app. right. left.
        -- apply Hfresh; [done|]. intros Hj'. apply Hn. apply elem_of_app. by left.
      * intros k1 j [Hk1|[Hge Hk1]]%lookup_app_Some.
        -- destruct (Howned k1 j Hk1)
             as (r' & called' & rest'' & Hr & Hatt' & Hc' & Hrun').
           exists r', called', rest''. split; [done|]. split; [done|]. split; [done|].
           rewrite lookup_insert_ne; [done|].
           intros <-. apply Hnin. by eapply list_elem_of_lookup_2.
        -- apply list_lookup_singleton_Some in Hk1 as [Hk1 <-].
           replace k1 with (length order) by lia.
           exists response, [],
             (attempted (ValidateScorer.metrics self) response (judge self)).
           split; [done|]. split; [done|]. split.
           ++ apply calls_on_outside. eapply Forall_impl; [done|].
              intros c Hc. simpl in Hc. lia.
           ++ rewrite lookup_insert_eq. by rewrite Hlen in Hfol.
      * intros j Hj [Hin| ->%list_elem_of_singleton]%elem_of_app.
        -- by apply (Hqueue j).
        -- by destruct (inv_running _ _ _ Hpool i _ Hi) as (_ & Hnq & _).
      * intros j r' Hj. apply elem_of_app. left. by eapply Hdone.
  - (* the task of response [i] completes *)
    destruct (running s !! i) as [[r|X op k]|] eqn:Hi; [|done..].
    injection Hstep as <-.
    exists order, new. split; simpl; try done.
    + intros j t [Hne Hj]%lookup_delete_Some. by apply Hfresh.
    + intros k j Hk.
      destruct (Howned k j Hk) as (r' & called & rest & Hr & Hatt & Hc & Hrun).
      exists r', called, rest. split; [done|]. split; [done|]. split; [done|].
      destruct (decide (j = i)) as [->|Hne].
      * rewrite lookup_delete_eq. by rewrite Hi in Hrun.
      * by rewrite lookup_delete_ne.
    + intros j r' Hj. destruct (decide (i = j)) as [<-|Hne].
      * destruct (decide (i ∈ order)) as [|Hn]; [done|].
        by destruct (Hfresh i _ Hi Hn) as (? & _ & []).
      * rewrite list_lookup_insert_ne in Hj by done. by eapply Hdone.
  - (* the caller reads a future *)
    destruct (failure s); [done|].
    destruct (futures s !! length (collected s)) as [[[b|e]|]|]; try done;
      injection Hstep as <-; by exists order, new.
  - (* the caller cancels a future *)
    destruct (to_cancel s); [done|]. injection Hstep as <-.
    exists order, new. split; simpl; try done.
    intros i Hi%list_elem_of_filter. apply Hqueue. by destruct Hi.
Qed.

Lemma run_scoring schedule s s' order new :
  pool_inv (rundata_of self) responses s →
  scoring_inv self responses w0 order new s →
  run parallelism (_score_item_rundata self) responses schedule s = Some s' →
  ∃ order' new', scoring_inv self responses w0 order' new' s'.
Proof.
  revert s order new.
  induction schedule as [|e schedule IH]; intros s order new Hpool Hinv; simpl.
  - intros [= <-]. by exists order, new.
  - destruct (step parallelism (_score_item_rundata self) responses e s)
      as [s1|] eqn:Hstep; [|done].
    destruct (step_scoring e s s1 order new Hpool Hinv Hstep) as (order1 & new1 & Hinv1).
    apply (IH s1 order1 new1); [|done].
    eapply step_inv; [|done..]. apply (score_item_rundata_yields self).
Qed.

(** Every execution of the scoring pool: the responses whose task has
    constructed its service object, in the order of construction, and
    the calls made. *)
Lemma executor_map_scoring schedule out w' :
  0 < parallelism →
  executor_map parallelism (_score_item_rundata self) responses schedule w0
    = Some (out, w') →
  ∃ order new,
    NoDup order
    ∧ (is_Ok out → order ≡ₚ seq 0 (length responses))
    ∧ services w' = services w0 ++ replicate (length order) (judge self)
    ∧ calls w' = calls w0 ++ new
    ∧ Forall (λ c, length (services w0) ≤ call_service c
                   < length (services w0) + length order)%nat new
    ∧ ∀ k i, order !! k = Some i →
        ∃ response,
          responses !! i = Some response
          ∧ calls_on (length (services w0) + k) new
            = (λ metric, Call (length (services w0) + k) (Metric.name metric) response)
                <$> attempted (ValidateScorer.metrics self) response (judge self).
Proof.
  intros Hpos (s & Hrun & Hfin & -> & ->)%executor_map_run; [|done].
  pose proof (run_inv parallelism _ responses (rundata_of self)
                (score_item_rundata_yields self) schedule _ s
                (submit_all_inv _ _ w0) Hrun) as Hpool.
  destruct (run_scoring schedule _ s [] [] (submit_all_inv _ _ w0)
              submit_all_scoring Hrun)
    as (order & new & [Hsv Hnd Hcalls Hall Hfresh Howned Hqueue Hdone]).
  apply finished_inv in Hfin as (Hq & Hr & Hfin).
  assert (∀ k i, order !! k = Some i →
    ∃ response,
      responses !! i = Some response
      ∧ calls_on (length (services w0) + k) new
        = (λ metric, Call (length (services w0) + k) (Metric.name metric) response)
            <$> attempted (ValidateScorer.metrics self) response (judge self))
    as Hsummary.
  { intros k i Hk.
    destruct (Howned k i Hk) as (response & called & rest & Hresp & Hatt & Hc & Hrest).
    rewrite Hr, lookup_empty in Hrest. subst rest. rewrite app_nil_r in Hatt.
    exists response. split; [done|]. by rewrite Hatt. }
  exists order, new. split; [done|]. split; [|by repeat split].
  intros [run_data Hout]. unfold outcome in Hout.
  destruct (failure s) as [e|]; [done|].
  apply NoDup_Permutation; [done|apply NoDup_seq|].
  intros i. rewrite elem_of_seq. split.
  - intros [k Hk]%list_elem_of_lookup.
    destruct (Hsummary k i Hk) as (response & Hresp%lookup_lt_Some & _). lia.
  - intros [_ Hi]. simpl in Hi.
    rewrite <- (inv_length _ _ _ Hpool), <- Hfin in Hi.
    destruct (lookup_lt_is_Some_2 _ _ Hi) as [b Hb].
    by apply (Hdone i (Ok b)), (inv_collected _ _ _ Hpool).
Qed.
End scoring.

(** ** [score_run] and [score] *)

Section scorer.
Variable self : ValidateScorer.t.
Implicit Types (responses : list LLMResponse.t) (parallelism : Z).
Implicit Types (schedule : list event) (w : world) (run : Run.t).

(** What a returned [Run] is made of. *)
Lemma score_run_Ok responses parallelism schedule w run w' :
  score_run self responses parallelism schedule w = Some (Ok run, w') →
  0 < parallelism
  ∧ sequence (rundata_of self <$> responses) = Ok (Run.run_data run)
  ∧ aggregate (Run.run_data run) = Ok (Run.overall_scores run)
  ∧ Run.id run = None.
Proof.
  unfold score_run.
  destruct (executor_map parallelism (_score_item_rundata self) responses schedule w)
    as [[[run_data|e] w1]|] eqn:Hmap; [|done..].
  destruct (decide (0 < parallelism)) as [Hpos|Hneg].
  2:{ apply executor_map_no_workers in Hmap as [_ [=]]. lia. }
  pose proof (executor_map_result parallelism _ responses (rundata_of self)
                (score_item_rundata_yields self) schedule w _ _ Hpos Hmap) as Hseq.
  symmetry in Hseq. apply (proj1 (generator_result_Ok _ _)) in Hseq.
  destruct (aggregate run_data) as [overall|e] eqn:Hagg; simpl; [|done].
  intros [= <- <-]. by simpl.
Qed.


Lemma score_run_no_workers responses parallelism schedule w out w' :
  parallelism ≤ 0 →
  score_run self responses parallelism schedule w = Some (out, w') →
  out = Raise (ValueError "max_workers must be greater than 0") ∧ w' = w.
Proof.
  intros Hle Hrun. unfold score_run in Hrun.
  destruct (executor_map parallelism (_score_item_rundata self) responses schedule w)
    as [[r w1]|] eqn:Hmap; [|done].
  apply executor_map_no_workers in Hmap as [_ [= -> ->]]; [|done].
  by injection Hrun as <- <-.
Qed.


(** A task returns an entry only if every metric returned, and then the
    entry has a score under the name of every metric; it raises only
    what a metric raised. *)
Lemma rundata_of_cases response :
  match rundata_of self response with
  | Ok item =>
      Forall (λ metric,
                is_Ok (Metric.score metric response (judge self))
                ∧ is_Some (RunData.scores item !! Metric.name metric))
             (ValidateScorer.metrics self)
      ∧ dom (RunData.scores item)
        = list_to_set (Metric.name <$> ValidateScorer.metrics self)
  | Raise e =>
      ∃ metric, metric ∈ ValidateScorer.metrics self
        ∧ Metric.score metric response (judge self) = Raise e
  end.
Proof.
  unfold rundata_of. rewrite score_item_rundata_eq. simpl.
  destruct (score_all self (ValidateScorer.metrics self) response ∅)
    as [scores|e] eqn:Hall; simpl.
  - pose proof (score_all_dom self _ _ _ _ Hall) as Hdom.
    rewrite dom_empty_L, (left_id_L ∅ (∪)) in Hdom.
    destruct (score_all_Ok self _ _ _ _ Hall) as [Hok _].
    split; [|done]. apply Forall_forall. intros metric Hin.
    split; [by apply (proj1 (Forall_forall _ _) Hok)|].
    apply elem_of_dom. rewrite Hdom. apply elem_of_list_to_set.
    apply list_elem_of_fmap. by exists metric.
  - apply score_all_Raise in Hall as (before & metric & after & -> & _ & Hm).
    exists metric. split; [|done]. apply elem_of_app. right. left.
Qed.

(** The entry of a returned task has, under each name, the score of the
    last metric of that name. *)
Lemma rundata_of_last_wins response item name metric :
  rundata_of self response = Ok item →
  last (named name (ValidateScorer.metrics self)) = Some metric →
  ∃ v, Metric.score metric response (judge self) = Ok v
    ∧ RunData.scores item !! name = Some v.
Proof.
  unfold rundata_of. rewrite score_item_rundata_eq. simpl.
  destruct (score_all self (ValidateScorer.metrics self) response ∅)
    as [scores|e] eqn:Hall; simpl; [|done].
  intros [= <-] Hlast. simpl.
  destruct (score_all_Ok self _ _ _ _ Hall) as [Hok Hlook].
  rewrite Hlook, Hlast.
  assert (metric ∈ ValidateScorer.metrics self) as Hin.
  { apply last_Some in Hlast as [l Hl].
    assert (metric ∈ named name (ValidateScorer.metrics self)) as Hm.
    { rewrite Hl. apply elem_of_app. right. left. }
    unfold named in Hm. by apply list_elem_of_filter in Hm as [_ ?]. }
  destruct (proj1 (Forall_forall _ _) Hok metric Hin) as [v Hv].
  exists v. by rewrite Hv.
Qed.

Lemma rundata_of_fields response item :
  rundata_of self response = Ok item →
  RunData.question item = BenchmarkItem.question (LLMResponse.benchmark_item response)
  ∧ RunData.reference_answer item
    = BenchmarkItem.answer (LLMResponse.benchmark_item response)
  ∧ RunData.llm_answer item = LLMResponse.llm_answer response
  ∧ RunData.llm_context_list item = LLMResponse.llm_context_list response.
Proof.
  unfold rundata_of. rewrite score_item_rundata_eq. simpl.
  destruct (score_all self (ValidateScorer.metrics self) response ∅); simpl; [|done].
  by intros [= <-].
Qed.

Lemma observed_metrics_scored responses run_data :
  Forall2 (λ response item, rundata_of self response = Ok item) responses run_data →
  observed_metrics run_data =
    match responses with
    | [] => ∅
    | _ :: _ => list_to_set (Metric.name <$> ValidateScorer.metrics self)
    end.
Proof.
  intros Hall. unfold observed_metrics.
  assert (Forall (λ item, dom (RunData.scores item)
                          = list_to_set (Metric.name <$> ValidateScorer.metrics self))
                 run_data) as Hdom.
  { clear -Hall. induction Hall as [|response item rs items Hof _ IH]; constructor; [|done].
    pose proof (rundata_of_cases response) as Hcases. rewrite Hof in Hcases.
    by destruct Hcases. }
  destruct Hall as [|response item rs items _ _]; [done|].
  apply Forall_cons in Hdom as [Hitem Hitems]. csimpl. rewrite Hitem.
  clear -Hitems. induction Hitems as [|item' items' Hd _ IH]; csimpl.
  - by rewrite (right_id_L ∅ (∪)).
  - rewrite Hd, (assoc_L (∪)), (idemp_L (∪)). done.
Qed.

End scorer.

Lemma dom_reference_overall_scores run_data :
  dom (reference_overall_scores run_data) = observed_metrics run_data.
Proof.
  apply set_eq. intros m. rewrite elem_of_dom, reference_overall_scores_lookup.
  rewrite elem_of_observed_metrics.
  destruct (observations m run_data) as [|x xs] eqn:Hobs.
  - split; [by intros [? [=]]|]. intros (item & Hin & [v Hv]).
    pose proof (proj1 (observations_nil_iff _ _) Hobs item Hin). congruence.
  - split; [|by eexists]. intros _.
    assert (x ∈ observations m run_data) as Hx by (rewrite Hobs; left).
    apply list_elem_of_omap in Hx as (item & Hin & Hkey). by exists item.
Qed.

(** ** The generation stage *)

Section generation.
Variable callback : string → result (string * list string).
Implicit Types (benchmark : benchmark_arg) (item : BenchmarkItem.t).
Implicit Types (schedule : list event) (w : world).

Lemma create_response_yields item :
  yields (create_response callback item) (response_of callback item).
Proof.
  unfold response_of, create_response, lift, atomic. simpl. intros w. simpl.
  by destruct (callback (BenchmarkItem.question item)) as [[a c]|e].
Qed.

Lemma create_response_silent item : silent (create_response callback item).
Proof.
  unfold create_response, lift, atomic. simpl. intros w. simpl. split; [done|].
  by destruct (callback (BenchmarkItem.question item)) as [[a c]|e].
Qed.

Lemma response_of_Ok item response :
  response_of callback item = Ok response ↔
  ∃ llm_answer llm_context_list,
    callback (BenchmarkItem.question item) = Ok (llm_answer, llm_context_list)
    ∧ response = LLMResponse.mk llm_answer llm_context_list item.
Proof.
  unfold response_of, create_response, lift, atomic. simpl.
  destruct (callback (BenchmarkItem.question item)) as [[a c]|e]; simpl.
  - split; [intros [= <-]; by eexists _, _|by intros (? & ? & [= <- <-] & ->)].
  - split; [done|by intros (? & ? & [=] & _)].
Qed.


(** The generation stage calls no metric and constructs no service. *)
Lemma generate_world benchmark parallelism schedule w out w' :
  generate benchmark callback parallelism schedule w = Some (out, w') → w' = w.
Proof. apply executor_map_silent, create_response_silent. Qed.

Lemma generate_result benchmark parallelism schedule w out w' :
  0 < parallelism →
  generate benchmark callback parallelism schedule w = Some (out, w') →
  out = generator_result (sequence (response_of callback <$> benchmark_items benchmark)).
Proof.
  intros Hpos. unfold generate.
  by apply executor_map_result; [apply create_response_yields|].
Qed.

Lemma generate_cases benchmark parallelism schedule w out w' :
  generate benchmark callback parallelism schedule w = Some (out, w') →
  w' = w
  ∧ out = if decide (0 < parallelism)
          then generator_result
                 (sequence (response_of callback <$> benchmark_items benchmark))
          else Raise (ValueError "max_workers must be greater than 0").
Proof.
  intros Hgen. split; [by eapply generate_world|].
  case_decide as Hpos; [by eapply generate_result|].
  unfold generate in Hgen.
  apply executor_map_no_workers in Hgen as [_ [= -> _]]; [done|lia].
Qed.

(** What the generation stage returns. *)
Lemma generate_Ok benchmark parallelism schedule w responses w' :
  generate benchmark callback parallelism schedule w = Some (Ok responses, w') →
  0 < parallelism ∧ w' = w
  ∧ Forall2 (λ item response, response_of callback item = Ok response)
      (benchmark_items benchmark) responses.
Proof.
  intros [-> Hout]%generate_cases. case_decide; [|done].
  split; [done|]. split; [done|].
  symmetry in Hout. apply (proj1 (generator_result_Ok _ _)) in Hout.
  by apply sequence_Ok_Forall2 in Hout.
Qed.

End generation.

(** ** The examples of the specification *)

(** Two items, metric A scores 1.0 and 0.5, metric B 1.0 and 1.0. *)
Example multi_metric_mean :
  aggregate example_run_data = Ok (<["A" := 0.75%float]> {["B" := 1%float]}).
Proof. vm_compute. reflexivity. Qed.

(** The callback path, two workers in each stage: the second callback
    returns first, and the two scoring tasks take turns. *)
Example score_example :
  score example_scorer (OfList example_items) example_callback 2 2
    out_of_order interleaved empty_world
  = Some (Ok example_run, example_world).
Proof. vm_compute. reflexivity. Qed.

(** One item, one metric that always returns 1.0. *)
Example score_one_item :
  score (ValidateScorer.mk [constant "always" 1%float] "gpt-4-turbo-preview")
    (OfList [BenchmarkItem.mk "2+2?" "4" None]) example_callback 1 1
    [Start; Work 0; Finish 0; Collect] [Start; Work 0; Work 0; Finish 0; Collect]
    empty_world
  = Some (Ok (Run.mk {["always" := 1%float]}
                [RunData.mk {["always" := 1%float]} "2+2?" "4" "4" ["math context"]]
                None),
          World [OpenAIService.mk "gpt-4-turbo-preview"]
                [Call 0 "always"
                   (LLMResponse.mk "4" ["math context"]
                      (BenchmarkItem.mk "2+2?" "4" None))]).
Proof. vm_compute. reflexivity. Qed.

(** A third worker cannot start while two calls are running. *)
Example two_workers_at_most :
  generate (OfList failing_items) example_callback 2 [Start; Start; Start] empty_world
  = None.
Proof. vm_compute. reflexivity. Qed.

(** A call that is cancelled before a worker takes it never runs; one
    that a worker takes between two cancellations does. *)
Example start_between_cancellations :
  run 1 (create_response example_callback)
    [BenchmarkItem.mk "boom?" "0" None; BenchmarkItem.mk "1+1?" "2" None;
     BenchmarkItem.mk "2+2?" "4" None]
    [Start; Work 0; Finish 0; Collect; Cancel; Start; Cancel; Work 1; Finish 1]
    (submit_all [BenchmarkItem.mk "boom?" "0" None; BenchmarkItem.mk "1+1?" "2" None;
                 BenchmarkItem.mk "2+2?" "4" None] empty_world)
  = Some (Pool [] ∅
            [Some (Raise (Exception "callback failed"));
             Some (Ok (LLMResponse.mk "4" ["math context"]
                         (BenchmarkItem.mk "1+1?" "2" None)));
             None]
            [] (Some (Exception "callback failed")) [] empty_world).
Proof. vm_compute. reflexivity. Qed.

(** A metric that raises [StopIteration]: the plain loop raises it, the
    pool raises [RuntimeError]. *)
Example stop_iteration_replaced :
  (score_run_reference exhausted_scorer two_answers empty_world).1
    = Raise (StopIteration "")
  ∧ ∃ w', score_run exhausted_scorer two_answers 2 second_first empty_world
          = Some (Raise (RuntimeError "generator raised StopIteration"), w').
Proof. split; [vm_compute; reflexivity|]. eexists. vm_compute. reflexivity. Qed.

(** ** The claims *)

Section claims.
Implicit Types (self : ValidateScorer.t) (responses : list LLMResponse.t).
Implicit Types (schedule : list event) (w : world) (run : Run.t).

(** C1. In the [Run] that [score_run] returns, the overall score of a
    metric is the arithmetic mean (running sum from 0.0 in list order,
    divided by the count) of that metric's scores over exactly the
    [RunData] entries that have one; a metric no entry has is absent. *)
Theorem score_run_overall_scores_mean self responses parallelism schedule w run w' :
  score_run self responses parallelism schedule w = Some (Ok run, w') →
  ∀ m, Run.overall_scores run !! m =
    match observations m (Run.run_data run) with
    | [] => None
    | xs => Some (arithmetic_mean xs)
    end.
Proof.
  intros (_ & _ & Hagg & _)%score_run_Ok m.
  destruct (aggregate_lookup (Run.run_data run)) as (overall & Hagg' & Hlook).
  rewrite Hagg in Hagg'. injection Hagg' as ->. apply Hlook.
Qed.

Lemma score_run_overall_scores_mean_witness :
  score_run example_scorer example_responses 2 interleaved empty_world
    = Some (Ok example_run, example_world)
  ∧ ∀ m, Run.overall_scores example_run !! m =
      match observations m (Run.run_data example_run) with
      | [] => None
      | xs => Some (arithmetic_mean xs)
      end.
Proof.
  assert (score_run example_scorer example_responses 2 interleaved empty_world
          = Some (Ok example_run, example_world)) as Hrun
    by (vm_compute; reflexivity).
  split; [exact Hrun|].
  exact (score_run_overall_scores_mean _ _ _ _ _ _ _ Hrun).
Defined.

(** C6. In the [Run] that [score_run] returns, a metric name is a key of
    [overall_scores] exactly when some [RunData] entry has a score for
    it; every total is divided by a count of at least one, and the
    aggregation never raises. *)
Theorem score_run_overall_scores_observed self responses parallelism schedule w run w' :
  score_run self responses parallelism schedule w = Some (Ok run, w') →
  divide_totals (accumulate (Run.run_data run)).1 (accumulate (Run.run_data run)).2
    = Ok (Run.overall_scores run)
  ∧ (∀ m, is_Some (Run.overall_scores run !! m) ↔
          ∃ item, item ∈ Run.run_data run ∧ is_Some (RunData.scores item !! m))
  ∧ (∀ m total, (accumulate (Run.run_data run)).1 !! m = Some total →
                1 ≤ defaultdict_get 0 (accumulate (Run.run_data run)).2 m)
  ∧ ∀ run_data, is_Ok (aggregate run_data).
Proof.
  intros (_ & _ & Hagg & _)%score_run_Ok. split; [|split; [|split]].
  - unfold aggregate in Hagg. by destruct (accumulate (Run.run_data run)).
  - intros m. rewrite aggregate_reference in Hagg. injection Hagg as <-.
    rewrite reference_overall_scores_lookup.
    destruct (observations m (Run.run_data run)) as [|x xs] eqn:Hobs.
    + split; [by intros [? [=]]|].
      intros (item & Hin & [v Hv]).
      pose proof (proj1 (observations_nil_iff _ _) Hobs item Hin). congruence.
    + split; [|by eexists]. intros _.
      assert (x ∈ observations m (Run.run_data run)) as Hx by (rewrite Hobs; left).
      apply list_elem_of_omap in Hx as (item & Hin & Hkey). by exists item.
  - apply accumulate_count_positive.
  - intros run_data. rewrite aggregate_reference. by eexists.
Qed.

Lemma score_run_overall_scores_observed_witness :
  score_run example_scorer example_responses 2 interleaved empty_world
    = Some (Ok example_run, example_world)
  ∧ (∀ m total, (accumulate (Run.run_data example_run)).1 !! m = Some total →
                1 ≤ defaultdict_get 0 (accumulate (Run.run_data example_run)).2 m).
Proof.
  assert (score_run example_scorer example_responses 2 interleaved empty_world
          = Some (Ok example_run, example_world)) as Hrun
    by (vm_compute; reflexivity).
  split; [exact Hrun|].
  exact (proj1 (proj2 (proj2 (score_run_overall_scores_observed _ _ _ _ _ _ _ Hrun)))).
Defined.

(** C7. Scoring no response is not an error: [score_run] on the empty
    list, and [score] on an empty benchmark, have one execution, and it
    returns a [Run] with no overall score and no [RunData]. *)
Theorem score_empty self benchmark callback callback_parallelism scoring_parallelism w :
  0 < callback_parallelism → 0 < scoring_parallelism →
  benchmark_items benchmark = [] →
  (∀ schedule out,
     score_run self [] scoring_parallelism schedule w = Some out ↔
     schedule = [] ∧ out = (Ok (Run.mk ∅ [] None), w))
  ∧ (∀ callback_schedule scoring_schedule out,
       score self benchmark callback callback_parallelism scoring_parallelism
         callback_schedule scoring_schedule w = Some out ↔
       callback_schedule = [] ∧ scoring_schedule = []
       ∧ out = (Ok (Run.mk ∅ [] None), w)).
Proof.
  intros Hcb Hsc Hitems.
  assert (∀ schedule out,
     score_run self [] scoring_parallelism schedule w = Some out ↔
     schedule = [] ∧ out = (Ok (Run.mk ∅ [] None), w)) as Hrun.
  { intros schedule out. unfold score_run.
    destruct (executor_map scoring_parallelism (_score_item_rundata self) [] schedule w)
      as [[r w1]|] eqn:Hmap.
    - apply executor_map_nil in Hmap as [-> [= -> ->]]; [|done].
      simpl. split; [by intros [= <-]|by intros [_ ->]].
    - split; [done|]. intros [-> _].
      assert (executor_map scoring_parallelism (_score_item_rundata self) [] [] w
              = Some (Ok [], w)) as Hnil by (by apply executor_map_nil).
      congruence. }
  split; [exact Hrun|].
  intros s1 s2 out. unfold score, generate. rewrite Hitems.
  destruct (executor_map callback_parallelism (create_response callback) [] s1 w)
    as [[r w1]|] eqn:Hmap.
  - apply executor_map_nil in Hmap as [-> [= -> ->]]; [|done].
    rewrite Hrun. split; [by intros [-> ->]|by intros (_ & -> & ->)].
  - split; [done|]. intros (-> & _ & _).
    assert (executor_map callback_parallelism (create_response callback) [] [] w
            = Some (Ok [], w)) as Hnil by (by apply executor_map_nil).
    congruence.
Qed.

Lemma score_empty_witness :
  0 < 1 ∧ 0 < 1 ∧ benchmark_items (OfBenchmark (Benchmark.mk [] None)) = []
  ∧ score example_scorer (OfBenchmark (Benchmark.mk [] None)) example_callback 1 1
      [] [] empty_world
    = Some (Ok (Run.mk ∅ [] None), empty_world).
Proof.
  split; [lia|]. split; [lia|]. split; [reflexivity|].
  apply (score_empty example_scorer (OfBenchmark (Benchmark.mk [] None))
           example_callback 1 1 empty_world); [lia|lia|reflexivity|done].
Defined.

(** C2. Whatever the parallelism and the schedule, the responses the
    generation stage of [score] produces are in the order of the
    benchmark items: the i-th response is built from what the callback
    returned for the i-th item. *)
Theorem generate_preserves_order benchmark callback callback_parallelism schedule w
    responses w' :
  generate benchmark callback callback_parallelism schedule w = Some (Ok responses, w') →
  length responses = length (benchmark_items benchmark)
  ∧ ∀ i item, benchmark_items benchmark !! i = Some item →
      ∃ llm_answer llm_context_list,
        callback (BenchmarkItem.question item) = Ok (llm_answer, llm_context_list)
        ∧ responses !! i = Some (LLMResponse.mk llm_answer llm_context_list item).
Proof.
  intros Hgen.
  apply generate_Ok in Hgen as (_ & _ & Hgen).
  split; [symmetry; by eapply Forall2_length|].
  intros i item Hitem.
  destruct (Forall2_lookup_l _ _ _ _ _ Hgen Hitem) as (response & Hresp & Hof).
  apply response_of_Ok in Hof as (a & c & Hcb & ->). by exists a, c.
Qed.

Lemma generate_preserves_order_witness :
  generate (OfList example_items) example_callback 2 out_of_order empty_world
    = Some (Ok example_responses, empty_world)
  ∧ length example_responses = length example_items
  ∧ ∀ i item, example_items !! i = Some item →
      ∃ llm_answer llm_context_list,
        example_callback (BenchmarkItem.question item) = Ok (llm_answer, llm_context_list)
        ∧ example_responses !! i = Some (LLMResponse.mk llm_answer llm_context_list item).
Proof.
  assert (generate (OfList example_items) example_callback 2 out_of_order empty_world
          = Some (Ok example_responses, empty_world)) as Hgen
    by (vm_compute; reflexivity).
  split; [exact Hgen|].
  exact (generate_preserves_order _ _ _ _ _ _ _ Hgen).
Defined.

(** C9. Whatever the parallelism and the schedule, the [run_data] of the
    [Run] that [score_run] returns is in the order of the responses: its
    i-th entry is what scoring the i-th response returns. *)
Theorem score_run_preserves_order self responses parallelism schedule w run w' :
  score_run self responses parallelism schedule w = Some (Ok run, w') →
  length (Run.run_data run) = length responses
  ∧ ∀ i response, responses !! i = Some response →
      ∃ item, Run.run_data run !! i = Some item
        ∧ ∀ w0, (_score_item_rundata self response w0).1 = Ok item.
Proof.
  intros (_ & Hseq & _ & _)%score_run_Ok.
  apply sequence_Ok_Forall2 in Hseq.
  split; [symmetry; by eapply Forall2_length|].
  intros i response Hresp.
  destruct (Forall2_lookup_l _ _ _ _ _ Hseq Hresp) as (item & Hitem & Hof).
  exists item. split; [done|]. intros w0. by rewrite rundata_of_result.
Qed.

Lemma score_run_preserves_order_witness :
  score_run example_scorer example_responses 2 interleaved empty_world
    = Some (Ok example_run, example_world)
  ∧ length (Run.run_data example_run) = length example_responses
  ∧ ∀ i response, example_responses !! i = Some response →
      ∃ item, Run.run_data example_run !! i = Some item
        ∧ ∀ w0, (_score_item_rundata example_scorer response w0).1 = Ok item.
Proof.
  assert (score_run example_scorer example_responses 2 interleaved empty_world
          = Some (Ok example_run, example_world)) as Hrun
    by (vm_compute; reflexivity).
  split; [exact Hrun|].
  exact (score_run_preserves_order _ _ _ _ _ _ _ Hrun).
Defined.







(** C10. Metrics that share a name are accepted by the constructor; in
    every [RunData] of a returned [Run] the name maps to the score of
    the last metric of that name, and the aggregation counts one value
    for that name per [RunData]. *)
Theorem duplicate_names_last_wins self responses parallelism schedule w run w'
    name metric :
  score_run self responses parallelism schedule w = Some (Ok run, w') →
  last (named name (ValidateScorer.metrics self)) = Some metric →
  __init__ (ValidateScorer.metrics self) (ValidateScorer.model_evaluator self) = Ok self
  ∧ Forall2
      (λ response item,
         ∃ v, Metric.score metric response (judge self) = Ok v
           ∧ RunData.scores item !! name = Some v)
      responses (Run.run_data run)
  ∧ defaultdict_get 0 (accumulate (Run.run_data run)).2 name
    = Z.of_nat (entries_with name (Run.run_data run))
  ∧ entries_with name (Run.run_data run) = length responses.
Proof.
  intros (_ & Hseq & _ & _)%score_run_Ok Hlast.
  apply sequence_Ok_Forall2 in Hseq.
  assert (Forall2
      (λ response item,
         ∃ v, Metric.score metric response (judge self) = Ok v
           ∧ RunData.scores item !! name = Some v)
      responses (Run.run_data run)) as Hall.
  { eapply Forall2_impl; [exact Hseq|]. intros response item Hof.
    by eapply rundata_of_last_wins. }
  split; [by destruct self|]. split; [done|].
  assert (∀ run_data, length (observations name run_data) = entries_with name run_data)
    as Hobs.
  { intros run_data. unfold observations, entries_with.
    induction run_data as [|item run_data IH]; [done|]. csimpl. rewrite filter_cons.
    destruct (RunData.scores item !! name) as [v|] eqn:Hv; csimpl; by rewrite IH. }
  split.
  - destruct (accumulate_lookup (Run.run_data run) name) as [_ Hn].
    unfold defaultdict_get. rewrite Hn, <- Hobs.
    by destruct (observations name (Run.run_data run)).
  - rewrite (Forall2_length _ _ _ Hall). unfold entries_with.
    clear Hseq. induction Hall as [|response item rs items [v [_ Hv]] _ IH]; [done|].
    rewrite filter_cons, decide_True by (by eexists). simpl. by rewrite IH.
Qed.

Lemma duplicate_names_last_wins_witness :
  score_run duplicate_scorer example_responses 1 in_order empty_world
    = Some (Ok duplicate_run, duplicate_world)
  ∧ last (named "A" (ValidateScorer.metrics duplicate_scorer))
    = Some (constant "A" 0.25%float)
  ∧ Forall2
      (λ response item,
         ∃ v, Metric.score (constant "A" 0.25%float) response (judge duplicate_scorer) = Ok v
           ∧ RunData.scores item !! "A" = Some v)
      example_responses (Run.run_data duplicate_run).
Proof.
  assert (score_run duplicate_scorer example_responses 1 in_order empty_world
          = Some (Ok duplicate_run, duplicate_world)) as Hrun
    by (vm_compute; reflexivity).
  assert (last (named "A" (ValidateScorer.metrics duplicate_scorer))
          = Some (constant "A" 0.25%float)) as Hlast
    by (vm_compute; reflexivity).
  split; [exact Hrun|]. split; [exact Hlast|].
  exact (proj1 (proj2 (duplicate_names_last_wins _ _ _ _ _ _ _ _ _ Hrun Hlast))).
Defined.

(** C5. Each task that scores a response constructs one service object
    of its own, with the scorer's [model_evaluator], however the tasks
    take turns.  With [order] the responses whose task has constructed
    its object, in the order of construction, and [new] the calls made
    during the run: no response is in [order] twice; the objects
    constructed during the run are one per response of [order]; every
    call of [new] is on one of them; the calls made on the object of a
    response are the metric calls of its task on that response, in
    configuration order, and no others; and when a [Run] is returned
    every response has its object, on which every configured metric was
    called. *)
Theorem one_service_per_response self responses parallelism schedule w out w' :
  score_run self responses parallelism schedule w = Some (out, w') →
  ∃ order new,
    NoDup order
    ∧ (is_Ok out → order ≡ₚ seq 0 (length responses))
    ∧ services w' =
        services w ++ replicate (length order)
                        (OpenAIService.mk (ValidateScorer.model_evaluator self))
    ∧ calls w' = calls w ++ new
    ∧ Forall (λ c, length (services w) ≤ call_service c < length (services w'))%nat
        new
    ∧ ∀ k i, order !! k = Some i →
        ∃ response,
          responses !! i = Some response
          ∧ services w' !! (length (services w) + k)%nat
            = Some (OpenAIService.mk (ValidateScorer.model_evaluator self))
          ∧ calls_on (length (services w) + k) new
            = (λ metric, Call (length (services w) + k) (Metric.name metric) response)
                <$> attempted (ValidateScorer.metrics self) response (judge self)
          ∧ (is_Ok out →
             attempted (ValidateScorer.metrics self) response (judge self)
             = ValidateScorer.metrics self).
Proof.
  intros Hrun.
  destruct (decide (0 < parallelism)) as [Hpos|Hneg].
  2:{ apply score_run_no_workers in Hrun as [-> ->]; [|lia].
      exists [], []. simpl. rewrite !app_nil_r.
      split; [constructor|]. split; [by intros [? [=]]|]. split; [done|].
      split; [done|]. split; [constructor|]. intros k i Hk.
      by rewrite lookup_nil in Hk. }
  assert (∃ r, executor_map parallelism (_score_item_rundata self) responses schedule w
               = Some (r, w') ∧ (is_Ok out → is_Ok r)) as (r & Hmap & HOk).
  { unfold score_run in Hrun.
    destruct (executor_map parallelism (_score_item_rundata self) responses schedule w)
      as [[[run_data|e] w1]|]; [| |done].
    - injection Hrun as _ <-. eexists. split; [done|]. by eexists.
    - injection Hrun as <- <-. eexists. split; [done|]. by intros [? [=]]. }
  apply executor_map_scoring in Hmap
    as (order & new & Hnd & Hperm & Hsv & Hnew & Hall & Hcalls); [|done].
  exists order, new. split; [done|]. split; [by auto|]. split; [done|].
  split; [done|]. split.
  { eapply Forall_impl; [done|].
    intros c Hc. simpl in Hc. rewrite Hsv, length_app, length_replicate. lia. }
  intros k i Hk. destruct (Hcalls k i Hk) as (response & Hresp & Hon).
  exists response. split; [done|]. split; [|split; [done|]].
  - rewrite Hsv, lookup_app_r, Nat.add_comm, Nat.add_sub by lia.
    apply lookup_replicate. split; [done|]. by eapply lookup_lt_Some.
  - intros [run ->]. apply score_run_Ok in Hrun as (_ & Hseq & _ & _).
    apply sequence_Ok_Forall2 in Hseq.
    destruct (Forall2_lookup_l _ _ _ _ _ Hseq Hresp) as (item & _ & Hof).
    pose proof (rundata_of_cases self response) as Hcases. rewrite Hof in Hcases.
    destruct Hcases as [Hmetrics _]. apply attempted_all.
    eapply Forall_impl; [exact Hmetrics|]. by intros metric [? _].
Qed.

Lemma one_service_per_response_witness :
  score_run example_scorer example_responses 2 interleaved empty_world
    = Some (Ok example_run, example_world)
  ∧ ∃ order,
      order ≡ₚ [0; 1]%nat
      ∧ services example_world
        = replicate (length order) (OpenAIService.mk "gpt-4-turbo-preview")
      ∧ ∀ k i, order !! k = Some i →
          ∃ response,
            example_responses !! i = Some response
            ∧ calls_on k (calls example_world)
              = [Call k "A" response; Call k "B" response].
Proof.
  assert (score_run example_scorer example_responses 2 interleaved empty_world
          = Some (Ok example_run, example_world)) as Hrun
    by (vm_compute; reflexivity).
  split; [exact Hrun|].
  destruct (one_service_per_response example_scorer example_responses 2 interleaved
              empty_world (Ok example_run) example_world Hrun)
    as (order & new & _ & Hperm & Hsv & Hnew & _ & Hcalls).
  exists order. split; [apply Hperm; by eexists|]. split; [exact Hsv|].
  intros k i Hk. destruct (Hcalls k i Hk) as (response & Hresp & _ & Hon & Hall).
  exists response. split; [exact Hresp|].
  change (calls empty_world ++ new) with new in Hnew. rewrite Hnew.
  change (length (services empty_world) + k)%nat with k in Hon.
  rewrite Hon, Hall by (by eexists). reflexivity.
Defined.



End claims.

(** * Further properties of the scorer *)

Section extras.
Implicit Types (self : ValidateScorer.t) (responses : list LLMResponse.t).
Implicit Types (schedule : list event) (w : world) (run : Run.t).

(** X4. A task constructs its service object, then calls the metrics in
    configuration order with that object and its response, stopping at
    the first metric that raises: every metric before it returned, no
    metric after it is called, and its exception is the task's. *)
Theorem task_calls_metrics_in_order self response w r w' :
  _score_item_rundata self response w = (r, w') →
  services w' = services w ++ [OpenAIService.mk (ValidateScorer.model_evaluator self)]
  ∧ ∃ called,
      calls w' = calls w
        ++ ((λ metric, Call (length (services w)) (Metric.name metric) response)
              <$> called)
      ∧ called `prefix_of` ValidateScorer.metrics self
      ∧ match r with
        | Ok _ => called = ValidateScorer.metrics self
        | Raise e =>
            ∃ before metric,
              called = before ++ [metric]
              ∧ Forall (λ m, is_Ok (Metric.score m response (judge self))) before
              ∧ Metric.score metric response (judge self) = Raise e
        end.
Proof.
  rewrite score_item_rundata_eq. intros [= <- <-]. simpl. split; [done|].
  exists (attempted (ValidateScorer.metrics self) response (judge self)).
  split; [done|].
  destruct (attempted_cases self (ValidateScorer.metrics self) response ∅)
    as [Hpre Hcase].
  split; [done|].
  by destruct (score_all self (ValidateScorer.metrics self) response ∅).
Qed.

Lemma task_calls_metrics_in_order_witness :
  ∃ w',
    _score_item_rundata broken_scorer (LLMResponse.mk "4" [] (BenchmarkItem.mk "q" "4" None))
      empty_world = (Raise (Exception "judge unavailable"), w')
    ∧ calls w' =
        [Call 0 "A" (LLMResponse.mk "4" [] (BenchmarkItem.mk "q" "4" None));
         Call 0 "B" (LLMResponse.mk "4" [] (BenchmarkItem.mk "q" "4" None))]
    ∧ services w' = services empty_world
        ++ [OpenAIService.mk (ValidateScorer.model_evaluator broken_scorer)].
Proof.
  eexists. split; [vm_compute; reflexivity|]. split; [reflexivity|].
  refine (proj1 (task_calls_metrics_in_order broken_scorer _ empty_world _ _ _)).
  vm_compute. reflexivity.
Defined.



(** X6. Every [RunData] of a returned [Run] carries the question and the
    reference answer of its response's benchmark item and the answer and
    context list of the response; the [Run] has no identifier. *)
Theorem score_run_carries_fields self responses parallelism schedule w run w' :
  score_run self responses parallelism schedule w = Some (Ok run, w') →
  Run.id run = None
  ∧ Forall2
      (λ response item,
         RunData.question item
           = BenchmarkItem.question (LLMResponse.benchmark_item response)
         ∧ RunData.reference_answer item
           = BenchmarkItem.answer (LLMResponse.benchmark_item response)
         ∧ RunData.llm_answer item = LLMResponse.llm_answer response
         ∧ RunData.llm_context_list item = LLMResponse.llm_context_list response)
      responses (Run.run_data run).
Proof.
  intros (_ & Hseq & _ & Hid)%score_run_Ok. split; [done|].
  apply sequence_Ok_Forall2 in Hseq.
  eapply Forall2_impl; [exact Hseq|]. intros response item Hof.
  by apply (rundata_of_fields self).
Qed.

Lemma score_run_carries_fields_witness :
  score_run example_scorer example_responses 2 interleaved empty_world
    = Some (Ok example_run, example_world)
  ∧ Run.id example_run = None.
Proof.
  assert (score_run example_scorer example_responses 2 interleaved empty_world
          = Some (Ok example_run, example_world)) as Hrun
    by (vm_compute; reflexivity).
  split; [exact Hrun|].
  exact (proj1 (score_run_carries_fields _ _ _ _ _ _ _ Hrun)).
Defined.

(** X7. The keys of [overall_scores] in a returned [Run] are the names
    of the configured metrics when there is at least one response, and
    there is no key when there is none. *)
Theorem overall_scores_keys self responses parallelism schedule w run w' :
  score_run self responses parallelism schedule w = Some (Ok run, w') →
  dom (Run.overall_scores run) =
    match responses with
    | [] => ∅
    | _ :: _ => list_to_set (Metric.name <$> ValidateScorer.metrics self)
    end.
Proof.
  intros (_ & Hseq & Hagg & _)%score_run_Ok.
  rewrite aggregate_reference in Hagg. injection Hagg as <-.
  rewrite dom_reference_overall_scores.
  apply (observed_metrics_scored self). by apply sequence_Ok_Forall2.
Qed.

Lemma overall_scores_keys_witness :
  score_run duplicate_scorer example_responses 1 in_order empty_world
    = Some (Ok duplicate_run, duplicate_world)
  ∧ dom (Run.overall_scores duplicate_run) = {["A"; "B"]}.
Proof.
  assert (score_run duplicate_scorer example_responses 1 in_order empty_world
          = Some (Ok duplicate_run, duplicate_world)) as Hrun
    by (vm_compute; reflexivity).
  split; [exact Hrun|].
  rewrite (overall_scores_keys _ _ _ _ _ _ _ Hrun).
  vm_compute. reflexivity.
Defined.

(** X8. The overall score of a metric depends on the entries only
    through the sequence of that metric's own scores: entries without
    the metric, the scores of other metrics and the other fields of the
    entries do not change it. *)
Theorem overall_score_by_observations (run_data run_data' : list RunData.t) m :
  observations m run_data = observations m run_data' →
  ∃ overall overall',
    aggregate run_data = Ok overall ∧ aggregate run_data' = Ok overall'
    ∧ overall !! m = overall' !! m.
Proof.
  intros Hobs.
  destruct (aggregate_lookup run_data) as (overall & -> & Hlook).
  destruct (aggregate_lookup run_data') as (overall' & -> & Hlook').
  exists overall, overall'. by rewrite Hlook, Hlook', Hobs.
Qed.

Lemma overall_score_by_observations_witness :
  observations "A" disjoint_entries = observations "A" (take 1 disjoint_entries)
  ∧ ∃ overall overall',
      aggregate disjoint_entries = Ok overall
      ∧ aggregate (take 1 disjoint_entries) = Ok overall'
      ∧ overall !! "A" = overall' !! "A".
Proof.
  assert (observations "A" disjoint_entries
          = observations "A" (take 1 disjoint_entries)) as Hobs
    by (vm_compute; reflexivity).
  split; [exact Hobs|]. exact (overall_score_by_observations _ _ "A" Hobs).
Defined.



(** X10. End to end: in a [Run] that [score] returns, the i-th
    [RunData] holds the question and the reference answer of the i-th
    benchmark item and the answer and context list the callback returned
    for that question. *)
Theorem score_end_to_end self benchmark callback
    callback_parallelism scoring_parallelism callback_schedule scoring_schedule
    w run w' :
  score self benchmark callback callback_parallelism scoring_parallelism
    callback_schedule scoring_schedule w = Some (Ok run, w') →
  Forall2
    (λ item entry,
       ∃ llm_answer llm_context_list,
         callback (BenchmarkItem.question item) = Ok (llm_answer, llm_context_list)
         ∧ RunData.question entry = BenchmarkItem.question item
         ∧ RunData.reference_answer entry = BenchmarkItem.answer item
         ∧ RunData.llm_answer entry = llm_answer
         ∧ RunData.llm_context_list entry = llm_context_list)
    (benchmark_items benchmark) (Run.run_data run).
Proof.
  intros Hscore. unfold score in Hscore.
  destruct (generate benchmark callback callback_parallelism callback_schedule w)
    as [[[responses|e] w1]|] eqn:Hgen; [|done..].
  apply generate_Ok in Hgen as (_ & -> & Hgen).
  apply score_run_Ok in Hscore as (_ & Hseq & _ & _).
  apply sequence_Ok_Forall2 in Hseq.
  revert Hseq. generalize (Run.run_data run).
  induction Hgen as [|item response items rs Hof _ IH]; intros entries Hseq.
  - by apply Forall2_nil_inv_l in Hseq as ->.
  - apply Forall2_cons_inv_l in Hseq as (entry & entries' & Hentry & Hrest & ->).
    constructor; [|by apply IH].
    apply response_of_Ok in Hof as (a & c & Hcb & ->).
    apply rundata_of_fields in Hentry as (Hq & Ha & Hla & Hlc).
    exists a, c. by repeat split.
Qed.

Lemma score_end_to_end_witness :
  score example_scorer (OfList example_items) example_callback 2 2
    out_of_order interleaved empty_world
  = Some (Ok example_run, example_world)
  ∧ Forall2
      (λ item entry,
         ∃ llm_answer llm_context_list,
           example_callback (BenchmarkItem.question item)
             = Ok (llm_answer, llm_context_list)
           ∧ RunData.question entry = BenchmarkItem.question item
           ∧ RunData.reference_answer entry = BenchmarkItem.answer item
           ∧ RunData.llm_answer entry = llm_answer
           ∧ RunData.llm_context_list entry = llm_context_list)
      example_items (Run.run_data example_run).
Proof.
  assert (score example_scorer (OfList example_items) example_callback 2 2
            out_of_order interleaved empty_world
          = Some (Ok example_run, example_world)) as Hscore
    by (vm_compute; reflexivity).
  split; [exact Hscore|].
  exact (score_end_to_end example_scorer (OfList example_items) example_callback
           2 2 out_of_order interleaved empty_world example_run example_world Hscore).
Defined.

(** X11. A [parallelism] of zero or less is rejected for every input,
    the empty list included: [score_run] has one execution, it raises
    [ValueError], and no response is scored. *)
Theorem score_run_rejects_no_workers self responses parallelism schedule w out :
  parallelism ≤ 0 →
  score_run self responses parallelism schedule w = Some out ↔
  schedule = []
  ∧ out = (Raise (ValueError "max_workers must be greater than 0"), w).
Proof.
  intros Hle. unfold score_run.
  destruct (executor_map parallelism (_score_item_rundata self) responses schedule w)
    as [[r w1]|] eqn:Hmap.
  - apply executor_map_no_workers in Hmap as [-> [= -> ->]]; [|done].
    split; [by intros [= <-]|by intros [_ ->]].
  - split; [done|]. intros [-> _].
    assert (executor_map parallelism (_score_item_rundata self) responses [] w
            = Some (Raise (ValueError "max_workers must be greater than 0"), w))
      as Hnil by (by apply executor_map_no_workers).
    congruence.
Qed.

Lemma score_run_rejects_no_workers_witness :
  0 ≤ 0
  ∧ score_run example_scorer [] 0 [] empty_world
    = Some (Raise (ValueError "max_workers must be greater than 0"), empty_world).
Proof.
  split; [lia|].
  apply (score_run_rejects_no_workers example_scorer [] 0 [] empty_world); [lia|done].
Defined.




End extras.
